(** * McLeod Pitch Method (python/mpm.py): a shallow embedding over the reals

    Samples, NSDF values, frequencies and clarities are numpy [float64]
    values in the source; here they are real numbers ([R]), so every
    statement below is about the exact arithmetic the code approximates.
    Python integers are [Z] (or [nat] for indices produced by [range]),
    numpy arrays are lists, and [NaN]/[None] results are [option]. *)

From Stdlib Require Import Reals List ZArith Lia Lra Bool Arith.
From Stdlib Require Import Permutation Sorted.
From Stdlib Require String DecimalString.
Import ListNotations.
Open Scope R_scope.

(** ** Python outcomes: a value or a raised exception *)

Inductive exn : Set :=
| OverflowError
| ValueError
| ZeroDivisionError
| IndexError.

Inductive result (A : Type) : Type :=
| Ok (a : A)
| Raise (e : exn).
Arguments Ok {A} a.
Arguments Raise {A} e.

Definition bind {A B : Type} (c : result A) (k : A -> result B) : result B :=
  match c with
  | Ok a => k a
  | Raise e => Raise e
  end.

Notation "x <- c ;; k" := (bind c (fun x => k))
  (at level 61, c at next level, right associativity).

Fixpoint mapM {A B : Type} (f : A -> result B) (l : list A) : result (list B) :=
  match l with
  | [] => Ok []
  | a :: t => b <- f a ;; bs <- mapM f t ;; Ok (b :: bs)
  end.

(** ** Comparisons on reals as booleans *)

Definition Rltb (x y : R) : bool := if Rlt_dec x y then true else false.
Definition Rleb (x y : R) : bool := if Rle_dec x y then true else false.
Definition Reqb (x y : R) : bool := if Req_dec_T x y then true else false.

(** ** numpy helpers *)

Definition sumR (l : list R) : R := fold_right Rplus 0 l.

(** [np.cumsum]: running sums, same length as the input. *)
Fixpoint cumsum_from (acc : R) (l : list R) : list R :=
  match l with
  | [] => []
  | a :: t => (acc + a) :: cumsum_from (acc + a) t
  end.

Definition cumsum (l : list R) : list R := cumsum_from 0 l.

(** Element-wise binary operation on two arrays of the same shape. *)
Fixpoint map2 {A B C : Type} (f : A -> B -> C) (l : list A) (l' : list B) : list C :=
  match l, l' with
  | a :: t, b :: t' => f a b :: map2 f t t'
  | _, _ => []
  end.

(** [a[start:stop]] with Python's treatment of negative and
    out-of-range bounds. *)
Definition py_slice {A : Type} (l : list A) (start stop : Z) : list A :=
  let n := Z.of_nat (length l) in
  let clamp := fun i : Z => if (i <? 0)%Z then Z.max 0 (i + n) else Z.min i n in
  let lo := clamp start in
  let hi := clamp stop in
  firstn (Z.to_nat (hi - lo)) (skipn (Z.to_nat lo) l).

(** ** numpy.fft on the reals

    [rfft] and [irfft] are library functions; they are written here from
    their defining formulas: the discrete Fourier transform of a real
    sequence (non-negative frequencies only) and its inverse for a
    Hermitian-symmetric spectrum. *)

Module Fft.

Definition C : Type := (R * R)%type.

Definition C0 : C := (0, 0).
Definition Cre (z : C) : R := fst z.
Definition Cim (z : C) : R := snd z.
Definition Cadd (a b : C) : C := (Cre a + Cre b, Cim a + Cim b).
Definition Cmul (a b : C) : C :=
  (Cre a * Cre b - Cim a * Cim b, Cre a * Cim b + Cim a * Cre b).
Definition Cconj (a : C) : C := (Cre a, - Cim a).
Definition Cexp (t : R) : C := (cos t, sin t).
Definition Csum (l : list C) : C := fold_right Cadd C0 l.

(** Crop or zero-pad to length [N], as [rfft(a, n=N)] does to its input. *)
Definition resize (x : list R) (N : nat) : list R :=
  firstn N x ++ repeat 0 (N - length x).

Definition angle (j k N : nat) : R := 2 * PI * INR j * INR k / INR N.

(** [X[k] = sum_{j<N} x[j] * exp(-2 pi i j k / N)]. *)
Definition dft_coeff (xp : list R) (N k : nat) : C :=
  Csum (map (fun j => Cmul (nth j xp 0, 0) (Cexp (- angle j k N))) (seq 0 N)).

Definition rfft (x : list R) (N : nat) : list C :=
  let xp := resize x N in
  map (dft_coeff xp N) (seq 0 (N / 2 + 1)).

(** [irfft(Y)] with the default output length [N = 2*(len(Y)-1)]:
    [y[t] = (Re Y[0] + sum_{0<k<N/2} 2 Re(Y[k] exp(2 pi i k t/N))
             + Re Y[N/2] cos(pi t)) / N]. *)
Definition irfft (Y : list C) : list R :=
  let N := (2 * (length Y - 1))%nat in
  map (fun t =>
         (Cre (nth 0 Y C0)
          + sumR (map (fun k => 2 * Cre (Cmul (nth k Y C0) (Cexp (angle k t N))))
                      (seq 1 (N / 2 - 1)))
          + Cre (nth (N / 2) Y C0) * cos (PI * INR t)) / INR N)
      (seq 0 N).

End Fft.

(** ** NSDF engine: [normalized_square_difference] *)

(** Least [e] with [m <= 2^e], i.e. [int(np.ceil(np.log2(m)))] for [m >= 1]. *)
Fixpoint ceil_log2_from (fuel e m : nat) : nat :=
  match fuel with
  | O => e
  | S fuel' => if (m <=? 2 ^ e)%nat then e else ceil_log2_from fuel' (S e) m
  end.

Definition ceil_log2 (m : nat) : nat := ceil_log2_from m 0 m.

(** [2 ** int(np.ceil(np.log2(2 * n)))]; for [n = 0] the logarithm is
    [-inf] and [int] raises [OverflowError]. *)
Definition fft_size (n : nat) : result nat :=
  match n with
  | O => Raise OverflowError
  | S _ => Ok (2 ^ ceil_log2 (2 * n))%nat
  end.

Definition epsilon : R := 1e-10.

(** Autocorrelation through the transform: lines 45-46 of the source. *)
Definition autocorr_fft (audio_buffer : list R) (size : nat) : list R :=
  let fft := Fft.rfft audio_buffer size in
  firstn (length audio_buffer)
         (Fft.irfft (map2 Fft.Cmul fft (map Fft.Cconj fft))).

Definition cumsum_sq (audio_buffer : list R) : list R :=
  0 :: cumsum (map (fun v => v ^ 2) audio_buffer).

(** The loop of lines 53-55 followed by the masked assignment of line 58. *)
Definition m_array (audio_buffer : list R) : list R :=
  let n := length audio_buffer in
  let cs := cumsum_sq audio_buffer in
  map (fun tau => nth (n - tau) cs 0 + (nth n cs 0 - nth tau cs 0)) (seq 0 n).

Definition guard_zero (m : list R) : list R :=
  map (fun v => if Reqb v 0 then epsilon else v) m.

Definition normalized_square_difference (audio_buffer : list R) : result (list R) :=
  let n := length audio_buffer in
  size <- fft_size n ;;
  let autocorr := autocorr_fft audio_buffer size in
  let m := guard_zero (m_array audio_buffer) in
  Ok (map2 Rdiv (map (Rmult 2) autocorr) m).


(** ** The NSDF as the specification words it

    The direct O(n^2) autocorrelation [r(tau)], the energy term [m(tau)]
    as two sums of squares, and their guarded quotient. *)

Definition autocorr_direct (x : list R) (tau : nat) : R :=
  sumR (map (fun j => nth j x 0 * nth (j + tau) x 0) (seq 0 (length x - tau))).

Definition energy (x : list R) (tau : nat) : R :=
  sumR (map (fun j => nth j x 0 ^ 2) (seq 0 (length x - tau)))
  + sumR (map (fun j => nth j x 0 ^ 2) (seq tau (length x - tau))).

Definition guarded_energy (x : list R) (tau : nat) : R :=
  if Reqb (energy x tau) 0 then epsilon else energy x tau.

Definition nsdf_direct (x : list R) : list R :=
  map (fun tau => 2 * autocorr_direct x tau / guarded_energy x tau)
      (seq 0 (length x)).

(** The kernel [1 + 2 sum_{0<k<h} cos(k w) + cos(h w)] that the inverse
    transform of a power spectrum of length [h + 1] applies to each pair
    of samples. *)
Definition dirichlet (h : nat) (w : R) : R :=
  1 + sumR (map (fun k => 2 * cos (INR k * w)) (seq 1 (h - 1))) + cos (INR h * w).

(** The power spectrum is a double sum over pairs of samples: the
    pairs, the product of a pair and the phase of its lag. *)
Definition lag_angle (N : nat) (p : nat * nat) : R :=
  2 * PI * (INR (fst p) - INR (snd p)) / INR N.

Definition pair_weight (x : list R) (p : nat * nat) : R :=
  nth (fst p) x 0 * nth (snd p) x 0.

Definition sample_pairs (x : list R) : list (nat * nat) :=
  list_prod (seq 0 (length x)) (seq 0 (length x)).

(** ** Peak selector: [peak_picking] *)

Definition peak_step (nsdf : list R) (threshold : R)
    (peaks : list (nat * R)) (i : nat) : list (nat * R) :=
  if Rltb threshold (nth i nsdf 0) && Rltb 0 (nth i nsdf 0) then
    if Rltb (nth (i - 1) nsdf 0) (nth i nsdf 0)
       && Rltb (nth (i + 1) nsdf 0) (nth i nsdf 0)
    then peaks ++ [(i, nth i nsdf 0)]
    else peaks
  else peaks.

(** [for i in range(1, len(nsdf) - 1)]. *)
Definition peak_picking (nsdf : list R) (threshold : R) : list (nat * R) :=
  fold_left (peak_step nsdf threshold) (seq 1 (length nsdf - 1 - 1)) [].

(** The two tests of lines 92 and 94 as one predicate on the index. *)
Definition is_peak (nsdf : list R) (threshold : R) (i : nat) : bool :=
  Rltb threshold (nth i nsdf 0) && Rltb 0 (nth i nsdf 0)
  && (Rltb (nth (i - 1) nsdf 0) (nth i nsdf 0)
      && Rltb (nth (i + 1) nsdf 0) (nth i nsdf 0)).

(** ** Sub-sample refiner: [parabolic_interpolation] *)

(** [a[i]] at an index that is in range; every index the code reads
    is ([1 <= i <= n-2] in the loop and past the boundary test). *)
Definition item (a : list R) (i : Z) : R := nth (Z.to_nat i) a 0.

Definition parabolic_interpolation (nsdf : list R) (peak_index : Z) : R :=
  if ((peak_index <=? 0) || (peak_index >=? Z.of_nat (length nsdf) - 1))%Z then
    IZR peak_index
  else
    let alpha := item nsdf (peak_index - 1) in
    let beta := item nsdf peak_index in
    let gamma := item nsdf (peak_index + 1) in
    let denominator := alpha - 2 * beta + gamma in
    if Rltb (Rabs denominator) 1e-10 then IZR peak_index
    else
      let offset := 0.5 * (alpha - gamma) / denominator in
      IZR peak_index + offset.

(** ** Frame pitch detector: [mpm_pitch_detection] *)

(** Python's [max(iterable, key=...)]: the running maximum is replaced
    only by a strictly greater key. *)
Fixpoint max_by_key {A : Type} (key : A -> R) (best : A) (l : list A) : A :=
  match l with
  | [] => best
  | p :: t => max_by_key key (if Rltb (key best) (key p) then p else best) t
  end.

Definition strong_clarity_threshold : R := 0.8.

(** Lines 180-188: the choice of [best_peak] among non-empty [peaks]. *)
Definition select_best_peak (first : nat * R) (rest : list (nat * R)) : nat * R :=
  if Rleb strong_clarity_threshold (snd first) then first
  else max_by_key snd first rest.

Definition mpm_pitch_detection (audio_buffer : list R) (sample_rate threshold : R)
    : result (option R * option R) :=
  nsdf <- normalized_square_difference audio_buffer ;;
  match peak_picking nsdf threshold with
  | [] => Ok (None, None)
  | first :: rest =>
      let best_peak := select_best_peak first rest in
      let peak_index := fst best_peak in
      let clarity := snd best_peak in
      let refined_lag := parabolic_interpolation nsdf (Z.of_nat peak_index) in
      if Rltb 0 refined_lag then
        Ok (Some (sample_rate / refined_lag), Some clarity)
      else Ok (None, None)
  end.

(** ** Frame tracker: [detect_pitch_mpm] *)

Record frame_row : Type := mk_row {
  row_pitch : option R;
  row_clarity : option R;
  row_time : R
}.

(** One iteration of the loop of lines 246-262. *)
Definition track_frame (audio : list R) (sample_rate : R)
    (frame_length hop_length : Z) (threshold fmin fmax : R) (i : Z)
    : result frame_row :=
  let start := (i * hop_length)%Z in
  let stop := (start + frame_length)%Z in
  let frame := py_slice audio start stop in
  time <- (if Reqb sample_rate 0 then Raise ZeroDivisionError
           else Ok (IZR start / sample_rate)) ;;
  est <- mpm_pitch_detection frame sample_rate threshold ;;
  match fst est with
  | Some freq =>
      if Rleb fmin freq && Rleb freq fmax
      then Ok (mk_row (Some freq) (snd est) time)
      else Ok (mk_row None None time)
  | None => Ok (mk_row None None time)
  end.

Definition num_frames (audio_len frame_length hop_length : Z) : Z :=
  (1 + (audio_len - frame_length) / hop_length)%Z.

(** The three arrays of the result are kept as one list of rows;
    [np.full] refuses a negative length with [ValueError], and [//] by
    zero raises [ZeroDivisionError]. *)
Definition detect_pitch_mpm (audio : list R) (sample_rate : R)
    (frame_length hop_length : Z) (threshold fmin fmax : R)
    : result (list frame_row) :=
  if (hop_length =? 0)%Z then Raise ZeroDivisionError
  else
    let nf := num_frames (Z.of_nat (length audio)) frame_length hop_length in
    if (nf <? 0)%Z then Raise ValueError
    else
      mapM (track_frame audio sample_rate frame_length hop_length
                        threshold fmin fmax)
           (map Z.of_nat (seq 0 (Z.to_nat nf))).

Definition pitches_of (rows : list frame_row) : list (option R) := map row_pitch rows.
Definition clarities_of (rows : list frame_row) : list (option R) := map row_clarity rows.
Definition times_of (rows : list frame_row) : list R := map row_time rows.

(** ** Dominant pitch aggregator: [get_dominant_pitch_mpm] *)

(** A missing entry of a series is numpy's [NaN], here [None]. *)
Definition isnan (v : option R) : bool :=
  match v with
  | None => true
  | Some _ => false
  end.

(** [c >= min_clarity], which is false on [NaN]. *)
Definition ge_min (min_clarity : R) (c : option R) : bool :=
  match c with
  | Some v => Rleb min_clarity v
  | None => false
  end.

(** Boolean-mask indexing [a[mask]] for a mask of the array's length. *)
Fixpoint mask_select {A : Type} (a : list A) (mask : list bool) : list A :=
  match a, mask with
  | x :: t, b :: m => if b then x :: mask_select t m else mask_select t m
  | _, _ => []
  end.

(** The numbers of an array; the masks below never select a [NaN], so
    nothing is lost where this is used (lemma [floats_mask_length]). *)
Fixpoint floats (l : list (option R)) : list R :=
  match l with
  | [] => []
  | Some v :: t => v :: floats t
  | None :: t => floats t
  end.

(** [valid_mask &= other]: [other] must have the mask's length, or
    length one (then it is broadcast). *)
Definition inplace_and (mask other : list bool) : result (list bool) :=
  if (length other =? length mask)%nat then Ok (map2 andb mask other)
  else
    match other with
    | [b] => Ok (map (fun a => a && b) mask)
    | _ => Raise ValueError
    end.

Definition bool_index (a : list (option R)) (mask : list bool) : result (list R) :=
  if (length a =? length mask)%nat then Ok (floats (mask_select a mask))
  else Raise IndexError.

(** Integer-array indexing [a[idx]]. *)
Definition take (a : list R) (idx : list nat) : list R :=
  map (fun i => nth i a 0) idx.

(** [np.argsort], as a stable insertion sort of the indices. *)
Fixpoint insert_idx (key : nat -> R) (i : nat) (l : list nat) : list nat :=
  match l with
  | [] => [i]
  | j :: t => if Rleb (key i) (key j) then i :: j :: t else j :: insert_idx key i t
  end.

Definition argsort (a : list R) : list nat :=
  fold_right (insert_idx (fun i => nth i a 0)) [] (seq 0 (length a)).

(** [np.searchsorted(a, v)] (side 'left'): numpy's binary search. *)
Fixpoint bisect_left (fuel : nat) (a : list R) (v : R) (lo hi : nat) : nat :=
  match fuel with
  | O => lo
  | S fuel' =>
      if (lo <? hi)%nat then
        let mid := (lo + (hi - lo) / 2)%nat in
        if Rltb (nth mid a 0) v then bisect_left fuel' a v (S mid) hi
        else bisect_left fuel' a v lo mid
      else lo
  end.

Definition searchsorted (a : list R) (v : R) : nat :=
  bisect_left (length a) a v 0 (length a).

(** [np.median]: the middle of the sorted values, or the mean of the two
    middle ones. *)
Definition median (a : list R) : R :=
  let s := take a (argsort a) in
  let n := length a in
  if Nat.even n then (nth (n / 2 - 1) s 0 + nth (n / 2) s 0) / 2
  else nth (n / 2) s 0.

Definition valid_mask (pitches : list (option R))
    (clarities : option (list (option R))) (min_clarity : R)
    : result (list bool) :=
  let mask := map (fun p => negb (isnan p)) pitches in
  match clarities with
  | None => Ok mask
  | Some cl =>
      inplace_and mask
        (map (fun c => ge_min min_clarity c && negb (isnan c)) cl)
  end.

(** Lines 303-309: the clarity-weighted median of the valid entries. *)
Definition weighted_median (valid_pitches valid_clarities : list R) : result (option R) :=
  let sort_idx := argsort valid_pitches in
  let sorted_pitches := take valid_pitches sort_idx in
  let sorted_weights := take valid_clarities sort_idx in
  let cs := cumsum sorted_weights in
  let median_idx := searchsorted cs (last cs 0 / 2) in
  match nth_error sorted_pitches median_idx with
  | Some v => Ok (Some v)
  | None => Raise IndexError
  end.

Definition get_dominant_pitch_mpm (pitches : list (option R))
    (clarities : option (list (option R))) (min_clarity : R)
    : result (option R) :=
  mask <- valid_mask pitches clarities min_clarity ;;
  let valid_pitches := floats (mask_select pitches mask) in
  if (length valid_pitches =? 0)%nat then Ok None
  else
    match clarities with
    | Some cl =>
        valid_clarities <- bool_index cl mask ;;
        weighted_median valid_pitches valid_clarities
    | None => Ok (Some (median valid_pitches))
    end.

(** The valid subset as the specification words it: the (frequency,
    clarity) pairs of the entries whose frequency is present and whose
    clarity is present and at least the minimum. *)
Fixpoint valid_pairs (min_clarity : R) (pitches clarities : list (option R))
    : list (R * R) :=
  match pitches, clarities with
  | p :: ps, c :: cs =>
      match p, c with
      | Some f, Some v =>
          if Rleb min_clarity v then (f, v) :: valid_pairs min_clarity ps cs
          else valid_pairs min_clarity ps cs
      | _, _ => valid_pairs min_clarity ps cs
      end
  | _, _ => []
  end.

(** Cumulative weight of the positions [0..k] of a list of pairs. *)
Definition cumulative_weight (pairs : list (R * R)) (k : nat) : R :=
  sumR (map snd (firstn (S k) pairs)).

Definition total_weight (pairs : list (R * R)) : R := sumR (map snd pairs).

(** Total weight of the pairs whose frequency is at most [f]. *)
Definition weight_upto (f : R) (pairs : list (R * R)) : R :=
  sumR (map snd (filter (fun p => Rleb (fst p) f) pairs)).

(** Position [k] is the first whose cumulative weight reaches half of
    the total weight. *)
Definition reaches_half (pairs : list (R * R)) (k : nat) : Prop :=
  (k < length pairs)%nat
  /\ total_weight pairs / 2 <= cumulative_weight pairs k
  /\ forall j, (j < k)%nat -> cumulative_weight pairs j < total_weight pairs / 2.

(** Total weight of the pairs whose frequency is below [f]. *)
Definition weight_below (f : R) (pairs : list (R * R)) : R :=
  sumR (map snd (filter (fun p => Rltb (fst p) f) pairs)).

(** The valid pair of one entry of a series, if it has one. *)
Definition entry_pairs (min_clarity : R) (e : option R * option R)
    : list (R * R) :=
  match e with
  | (Some f, Some v) => if Rleb min_clarity v then [(f, v)] else []
  | _ => []
  end.

(** What a row of the tracker's result may hold. *)
Definition row_ok (threshold fmin fmax : R) (row : frame_row) : Prop :=
  (row_pitch row = None /\ row_clarity row = None)
  \/ exists f c,
       row_pitch row = Some f /\ row_clarity row = Some c
       /\ fmin <= f <= fmax /\ threshold < c /\ 0 < c.

(** ** Note naming: [pitch_to_note] of python/pitch_utils.py *)

Module PitchUtils.
Import String.

(** [np.log2] on the reals. *)
Definition log2 (x : R) : R := ln x / ln 2.

(** Python's [round] to an integer: to the nearest, ties to even. *)
Definition py_round (x : R) : Z :=
  let f := Zfloor x in
  let d := x - IZR f in
  if Rltb d (1 / 2) then f
  else if Rltb (1 / 2) d then (f + 1)%Z
  else if Z.even f then f else (f + 1)%Z.

(** [str] of an integer, as the f-string prints the octave. *)
Definition py_str_int (z : Z) : string :=
  DecimalString.NilZero.string_of_int (Z.to_int z).

Definition note_names : list string :=
  ["C"; "C#"; "D"; "D#"; "E"; "F"; "F#"; "G"; "G#"; "A"; "A#"; "B"]%string.

Definition note_of (midi : Z) : string :=
  nth (Z.to_nat (midi mod 12)) note_names ""%string.

Definition octave_of (midi : Z) : Z := (midi / 12 - 1)%Z.

Definition pitch_to_note (frequency : option R)
    : option string * option Z * option R :=
  match frequency with
  | None => (None, None, None)
  | Some f =>
      if Rleb f 0 then (None, None, None)
      else
        let midi_number := 69 + 12 * log2 (f / 440) in
        let midi_number_rounded := py_round midi_number in
        let cents_offset := 100 * (midi_number - IZR midi_number_rounded) in
        let octave := octave_of midi_number_rounded in
        let note := note_of midi_number_rounded in
        (Some (append note (py_str_int octave)),
         Some midi_number_rounded, Some cents_offset)
  end.

End PitchUtils.

(** * Properties *)

(** ** Boolean comparisons *)

Lemma Rltb_true (x y : R) : Rltb x y = true <-> x < y.
Proof. unfold Rltb. destruct (Rlt_dec x y); split; intros; try easy. Qed.

Lemma Rltb_false (x y : R) : Rltb x y = false <-> y <= x.
Proof.
  unfold Rltb. destruct (Rlt_dec x y); split; intros; try easy; lra.
Qed.

Lemma Rleb_true (x y : R) : Rleb x y = true <-> x <= y.
Proof. unfold Rleb. destruct (Rle_dec x y); split; intros; try easy. Qed.

Lemma Rleb_false (x y : R) : Rleb x y = false <-> y < x.
Proof.
  unfold Rleb. destruct (Rle_dec x y); split; intros; try easy; lra.
Qed.

Lemma Reqb_true (x y : R) : Reqb x y = true <-> x = y.
Proof. unfold Reqb. destruct (Req_dec_T x y); split; intros; try easy. Qed.

Lemma Reqb_false (x y : R) : Reqb x y = false <-> x <> y.
Proof. unfold Reqb. destruct (Req_dec_T x y); split; intros; try easy. Qed.

(** Decide every comparison of the goal whose outcome [lra] can settle. *)
Ltac rdecide :=
  repeat match goal with
  | |- context [Rltb ?a ?b] =>
      first [ rewrite (proj2 (Rltb_true a b)) by lra
            | rewrite (proj2 (Rltb_false a b)) by lra ]
  | |- context [Rleb ?a ?b] =>
      first [ rewrite (proj2 (Rleb_true a b)) by lra
            | rewrite (proj2 (Rleb_false a b)) by lra ]
  | |- context [Reqb ?a ?b] =>
      first [ rewrite (proj2 (Reqb_true a b)) by lra
            | rewrite (proj2 (Reqb_false a b)) by lra ]
  end.

(** ** Peak selector *)

Lemma peak_step_filter (nsdf : list R) (thr : R) (l : list nat) :
  forall acc,
    fold_left (peak_step nsdf thr) l acc
    = acc ++ map (fun i => (i, nth i nsdf 0)) (filter (is_peak nsdf thr) l).
Proof.
  induction l as [|i l IH]; intros acc; simpl.
  - now rewrite app_nil_r.
  - rewrite IH. unfold peak_step, is_peak.
    destruct (Rltb thr (nth i nsdf 0) && Rltb 0 (nth i nsdf 0)); simpl;
      [destruct (Rltb (nth (i - 1) nsdf 0) (nth i nsdf 0)
                 && Rltb (nth (i + 1) nsdf 0) (nth i nsdf 0)); simpl|];
      try reflexivity.
    now rewrite <- app_assoc.
Qed.

Lemma peak_picking_filter (nsdf : list R) (thr : R) :
  peak_picking nsdf thr
  = map (fun i => (i, nth i nsdf 0))
        (filter (is_peak nsdf thr) (seq 1 (length nsdf - 1 - 1))).
Proof. unfold peak_picking. now rewrite peak_step_filter. Qed.

Lemma is_peak_true (nsdf : list R) (thr : R) (i : nat) :
  is_peak nsdf thr i = true <->
  thr < nth i nsdf 0 /\ 0 < nth i nsdf 0
  /\ nth (i - 1) nsdf 0 < nth i nsdf 0 /\ nth (i + 1) nsdf 0 < nth i nsdf 0.
Proof.
  unfold is_peak. rewrite !andb_true_iff, !Rltb_true. tauto.
Qed.

Lemma filter_seq_sorted (f : nat -> bool) (len : nat) :
  forall start, StronglySorted lt (filter f (seq start len)).
Proof.
  induction len as [|len IH]; intros start; simpl.
  - constructor.
  - destruct (f start).
    + constructor; [apply IH|].
      apply Forall_forall. intros j Hj.
      apply filter_In in Hj. destruct Hj as [Hj _].
      apply in_seq in Hj. lia.
    + apply IH.
Qed.

Lemma peak_picking_In (nsdf : list R) (thr : R) (i : nat) (v : R) :
  In (i, v) (peak_picking nsdf thr) <->
  (1 <= i <= length nsdf - 2)%nat /\ v = nth i nsdf 0
  /\ thr < v /\ 0 < v /\ nth (i - 1) nsdf 0 < v /\ nth (i + 1) nsdf 0 < v.
Proof.
  rewrite peak_picking_filter, in_map_iff. split.
  - intros [j [Hj Hin]]. inversion Hj; subst j v; clear Hj.
    apply filter_In in Hin. destruct Hin as [Hin Hp].
    apply in_seq in Hin. apply is_peak_true in Hp.
    split; [lia|]. split; [reflexivity|]. tauto.
  - intros [Hi [Hv Hc]]. subst v. exists i. split; [reflexivity|].
    apply filter_In. split.
    + apply in_seq. lia.
    + apply is_peak_true. tauto.
Qed.

(** C3. For an NSDF array of length n >= 3 and any threshold,
    [peak_picking] returns, in strictly increasing lag order, exactly
    the indices i of [1, n-2] at which nsdf[i] exceeds the threshold, is
    positive and is strictly greater than both neighbours, each paired
    with nsdf[i]; lag 0 and index n-1 never occur, and the list is empty
    when no index qualifies. *)
Theorem peak_picking_spec (nsdf : list R) (threshold : R) :
  (3 <= length nsdf)%nat ->
  let n := length nsdf in
  let peaks := peak_picking nsdf threshold in
  (forall i v,
      In (i, v) peaks <->
      (1 <= i <= n - 2)%nat /\ v = nth i nsdf 0
      /\ threshold < v /\ 0 < v
      /\ nth (i - 1) nsdf 0 < v /\ nth (i + 1) nsdf 0 < v)
  /\ StronglySorted lt (map fst peaks)
  /\ (forall v, ~ In (0%nat, v) peaks)
  /\ (forall v, ~ In ((n - 1)%nat, v) peaks)
  /\ ((forall i, (1 <= i <= n - 2)%nat ->
         ~ (threshold < nth i nsdf 0 /\ 0 < nth i nsdf 0
            /\ nth (i - 1) nsdf 0 < nth i nsdf 0
            /\ nth (i + 1) nsdf 0 < nth i nsdf 0)) ->
      peaks = []).
Proof.
  intros Hn n peaks. subst n peaks.
  split; [|split; [|split; [|split]]].
  - intros i v. apply peak_picking_In.
  - rewrite peak_picking_filter, map_map. simpl. rewrite map_id.
    apply filter_seq_sorted.
  - intros v H. apply peak_picking_In in H. lia.
  - intros v H. apply peak_picking_In in H. lia.
  - intros Hnone.
    destruct (peak_picking nsdf threshold) as [|[i v] t] eqn:E; [reflexivity|].
    assert (Hin : In (i, v) (peak_picking nsdf threshold))
      by (rewrite E; now left).
    apply peak_picking_In in Hin.
    destruct Hin as [Hi [Hv Hc]]. subst v.
    exfalso. apply (Hnone i Hi). tauto.
Qed.

Lemma peak_picking_spec_witness :
  let nsdf := [1; 0.2; 0.9; 0.3; 0.95; 0.1] in
  (3 <= length nsdf)%nat
  /\ peak_picking nsdf 0.1 = [(2%nat, 0.9); (4%nat, 0.95)]
  /\ forall v, ~ In (0%nat, v) (peak_picking nsdf 0.1).
Proof.
  split; [simpl; lia|]. split.
  - unfold peak_picking, peak_step. simpl. rdecide. simpl. rdecide. reflexivity.
  - apply (peak_picking_spec [1; 0.2; 0.9; 0.3; 0.95; 0.1] 0.1). simpl; lia.
Defined.

(** ** Fundamental selection heuristic *)

Lemma max_by_key_split {A : Type} (key : A -> R) (l : list A) :
  forall best,
  exists l1 l2,
    best :: l = l1 ++ max_by_key key best l :: l2
    /\ (forall p, In p l1 -> key p < key (max_by_key key best l))
    /\ (forall p, In p l2 -> key p <= key (max_by_key key best l)).
Proof.
  induction l as [|p t IH]; intros best; simpl.
  - exists [], []. simpl. repeat split; intros q [].
  - destruct (Rltb (key best) (key p)) eqn:E.
    + apply Rltb_true in E.
      destruct (IH p) as [l1 [l2 [Heq [H1 H2]]]].
      set (r := max_by_key key p t) in *.
      exists (best :: l1), l2. split; [simpl; now rewrite Heq|].
      split; [|exact H2].
      assert (Hp : key p <= key r).
      { assert (Hin : In p (l1 ++ r :: l2)) by (rewrite <- Heq; now left).
        apply in_app_or in Hin. destruct Hin as [Hin|[Hin|Hin]].
        - apply H1 in Hin. lra.
        - rewrite <- Hin. lra.
        - now apply H2. }
      intros q [Hq|Hq]; [subst q; lra | now apply H1].
    + apply Rltb_false in E.
      destruct (IH best) as [l1 [l2 [Heq [H1 H2]]]].
      set (r := max_by_key key best t) in *.
      destruct l1 as [|b l1'].
      * simpl in Heq. inversion Heq as [[Hb Ht]].
        exists [], (p :: l2). simpl. split; [now rewrite <- Hb|].
        split; [intros q []|].
        intros q [Hq|Hq]; [subst q; now rewrite <- Hb | now apply H2].
      * simpl in Heq. inversion Heq as [[Hb Ht]]. subst b.
        exists (best :: p :: l1'), l2. split; [reflexivity|].
        split; [|exact H2].
        assert (Hbr : key best < key r) by (apply H1; now left).
        intros q [Hq|[Hq|Hq]]; [subst q; exact Hbr | subst q; lra |].
        apply H1. now right.
Qed.

Lemma select_best_peak_In (first : nat * R) (rest : list (nat * R)) :
  In (select_best_peak first rest) (first :: rest).
Proof.
  unfold select_best_peak.
  destruct (Rleb strong_clarity_threshold (snd first)); [now left|].
  destruct (max_by_key_split snd rest first) as [l1 [l2 [Heq _]]].
  rewrite Heq. apply in_or_app. right. now left.
Qed.

(** C4. On a non-empty ordered list of candidates the heuristic picks
    the first one when its value is at least 0.8; otherwise it picks a
    candidate of maximum value, and among equal maxima the first in list
    order: every candidate before the chosen one is strictly smaller,
    every candidate after it is at most equal. *)
Theorem select_best_peak_spec (first : nat * R) (rest : list (nat * R)) :
  let peaks := first :: rest in
  let best := select_best_peak first rest in
  (0.8 <= snd first -> best = first)
  /\ (snd first < 0.8 ->
      exists before after,
        peaks = before ++ best :: after
        /\ (forall p, In p before -> snd p < snd best)
        /\ (forall p, In p after -> snd p <= snd best)).
Proof.
  intros peaks best. subst peaks best. unfold select_best_peak.
  split; intros H.
  - unfold strong_clarity_threshold. now rdecide.
  - unfold strong_clarity_threshold. rdecide.
    apply max_by_key_split.
Qed.

(** Two equal maxima below 0.8: the one of lower lag is chosen; a first
    candidate of value 0.85 is chosen over a later, larger one. *)
Lemma select_best_peak_tie :
  select_best_peak (2%nat, 0.5) [(5%nat, 0.7); (9%nat, 0.7); (12%nat, 0.6)]
  = (5%nat, 0.7).
Proof.
  unfold select_best_peak, strong_clarity_threshold. simpl. rdecide.
  simpl. rdecide. simpl. rdecide. reflexivity.
Qed.

Lemma select_best_peak_strong_first :
  select_best_peak (2%nat, 0.85) [(5%nat, 0.9)] = (2%nat, 0.85).
Proof.
  unfold select_best_peak, strong_clarity_threshold. simpl. rdecide.
  reflexivity.
Qed.

(** ** Sub-sample refiner *)

(** C5. [parabolic_interpolation] returns the index unchanged when it
    is at a boundary (i <= 0 or i >= n-1) and when the second difference
    denom = nsdf[i-1] - 2 nsdf[i] + nsdf[i+1] has absolute value below
    1e-10; otherwise it returns i + 0.5 (nsdf[i-1] - nsdf[i+1]) / denom. *)
Theorem parabolic_interpolation_spec (nsdf : list R) (i : Z) :
  let n := Z.of_nat (length nsdf) in
  let denom := item nsdf (i - 1) - 2 * item nsdf i + item nsdf (i + 1) in
  ((i <= 0 \/ i >= n - 1)%Z -> parabolic_interpolation nsdf i = IZR i)
  /\ ((0 < i < n - 1)%Z -> Rabs denom < 1e-10 ->
      parabolic_interpolation nsdf i = IZR i)
  /\ ((0 < i < n - 1)%Z -> ~ Rabs denom < 1e-10 ->
      parabolic_interpolation nsdf i
      = IZR i + 0.5 * (item nsdf (i - 1) - item nsdf (i + 1)) / denom).
Proof.
  intros n denom. subst n denom. unfold parabolic_interpolation.
  split; [|split].
  - intros H.
    destruct (i <=? 0)%Z eqn:E1; [reflexivity|].
    destruct (i >=? Z.of_nat (length nsdf) - 1)%Z eqn:E2; [reflexivity|].
    lia.
  - intros H Hd.
    destruct (i <=? 0)%Z eqn:E1; [lia|].
    destruct (i >=? Z.of_nat (length nsdf) - 1)%Z eqn:E2; [lia|].
    simpl. now rewrite (proj2 (Rltb_true _ _) Hd).
  - intros H Hd.
    destruct (i <=? 0)%Z eqn:E1; [lia|].
    destruct (i >=? Z.of_nat (length nsdf) - 1)%Z eqn:E2; [lia|].
    simpl.
    destruct (Rltb _ _) eqn:E3; [apply Rltb_true in E3; contradiction|].
    reflexivity.
Qed.

(** A peak at index 2 between 0.5 and 0.75 is moved by 1/6 of a sample. *)
Lemma parabolic_interpolation_example :
  parabolic_interpolation [0; 0.5; 1; 0.75; 0] 2 = 2 + 1 / 6.
Proof.
  unfold parabolic_interpolation, item. simpl.
  replace (Rabs (0.5 - 2 * 1 + 0.75)) with 0.75 by (rewrite Rabs_left; lra).
  rdecide.
  replace (0.5 - 2 * 1 + 0.75) with (-3 / 4) by lra.
  replace (0.5 - 0.75) with (-1 / 4) by lra.
  lra.
Qed.

Lemma parabolic_interpolation_flat :
  parabolic_interpolation [0; 1; 1; 1; 0] 2 = 2.
Proof.
  unfold parabolic_interpolation, item. simpl.
  replace (Rabs (1 - 2 * 1 + 1)) with 0 by (rewrite Rabs_right; lra).
  rdecide. reflexivity.
Qed.

(** ** Finite sums of reals *)

Lemma sumR_app (l l' : list R) : sumR (l ++ l') = sumR l + sumR l'.
Proof. induction l as [|a l IH]; simpl; [lra | rewrite IH; lra]. Qed.

Lemma sumR_map_ext {A : Type} (f g : A -> R) (l : list A) :
  (forall a, In a l -> f a = g a) -> sumR (map f l) = sumR (map g l).
Proof.
  induction l as [|a l IH]; intros H; simpl; [reflexivity|].
  rewrite (H a) by now left. rewrite IH; [reflexivity|].
  intros b Hb. apply H. now right.
Qed.

Lemma sumR_map_zero {A : Type} (f : A -> R) (l : list A) :
  (forall a, In a l -> f a = 0) -> sumR (map f l) = 0.
Proof.
  induction l as [|a l IH]; intros H; simpl; [reflexivity|].
  rewrite (H a) by now left. rewrite IH; [lra|].
  intros b Hb. apply H. now right.
Qed.

Lemma sumR_map_plus {A : Type} (f g : A -> R) (l : list A) :
  sumR (map (fun a => f a + g a) l) = sumR (map f l) + sumR (map g l).
Proof. induction l as [|a l IH]; simpl; [lra | rewrite IH; lra]. Qed.

Lemma sumR_map_scal {A : Type} (c : R) (f : A -> R) (l : list A) :
  sumR (map (fun a => c * f a) l) = c * sumR (map f l).
Proof. induction l as [|a l IH]; simpl; [lra | rewrite IH; lra]. Qed.

Lemma sumR_map_scal_r {A : Type} (c : R) (f : A -> R) (l : list A) :
  sumR (map (fun a => f a * c) l) = sumR (map f l) * c.
Proof. induction l as [|a l IH]; simpl; [lra | rewrite IH; lra]. Qed.

Lemma sumR_map_swap {A B : Type} (f : A -> B -> R) (l : list A) (l' : list B) :
  sumR (map (fun a => sumR (map (fun b => f a b) l')) l)
  = sumR (map (fun b => sumR (map (fun a => f a b) l)) l').
Proof.
  induction l as [|a l IH]; simpl.
  - symmetry. now apply sumR_map_zero.
  - rewrite IH. now rewrite <- sumR_map_plus.
Qed.

Lemma sumR_map_mult {A B : Type} (f : A -> R) (g : B -> R)
    (l : list A) (l' : list B) :
  sumR (map f l) * sumR (map g l')
  = sumR (map (fun a => sumR (map (fun b => f a * g b) l')) l).
Proof.
  rewrite <- sumR_map_scal_r. apply sumR_map_ext. intros a _.
  now rewrite sumR_map_scal.
Qed.

(** A sum whose terms vanish except at one index of the range. *)
Lemma sumR_seq_single (c : nat -> R) (k len : nat) :
  forall start,
    sumR (map (fun i => if (i =? k)%nat then c i else 0) (seq start len))
    = if ((start <=? k) && (k <? start + len))%nat then c k else 0.
Proof.
  induction len as [|len IH]; intros start; simpl.
  - destruct (start <=? k)%nat eqn:E1; simpl; [|reflexivity].
    destruct (k <? start + 0)%nat eqn:E2; [|reflexivity].
    apply Nat.leb_le in E1. apply Nat.ltb_lt in E2. lia.
  - rewrite IH.
    destruct (start =? k)%nat eqn:E.
    + apply Nat.eqb_eq in E. subst k.
      replace (S start <=? start)%nat with false
        by (symmetry; apply Nat.leb_gt; lia).
      replace (start <=? start)%nat with true
        by (symmetry; apply Nat.leb_le; lia).
      replace (start <? start + S len)%nat with true
        by (symmetry; apply Nat.ltb_lt; lia).
      simpl. lra.
    + apply Nat.eqb_neq in E.
      replace (k <? S start + len)%nat with (k <? start + S len)%nat
        by (f_equal; lia).
      destruct (k <? start + S len)%nat; rewrite ?andb_false_r, ?andb_true_r.
      * destruct (S start <=? k)%nat eqn:E1, (start <=? k)%nat eqn:E2;
          try lra.
        -- apply Nat.leb_le in E1. apply Nat.leb_gt in E2. lia.
        -- apply Nat.leb_gt in E1. apply Nat.leb_le in E2. lia.
      * lra.
Qed.

(** Extending a range by indices whose terms vanish. *)
Lemma sumR_seq_extend (f : nat -> R) (n N : nat) :
  (n <= N)%nat ->
  (forall j, (n <= j < N)%nat -> f j = 0) ->
  sumR (map f (seq 0 N)) = sumR (map f (seq 0 n)).
Proof.
  intros Hle Hz.
  replace N with (n + (N - n))%nat at 1 by lia.
  rewrite seq_app, map_app, sumR_app.
  rewrite (sumR_map_zero f (seq (0 + n) (N - n))); [lra|].
  intros j Hj. apply in_seq in Hj. apply Hz. lia.
Qed.

(** ** Trigonometric sums *)

Lemma cos_2PI_nat (k : nat) : cos (2 * PI * INR k) = 1.
Proof.
  replace (2 * PI * INR k) with (0 + 2 * INR k * PI) by ring.
  rewrite cos_period. apply cos_0.
Qed.

Lemma cos_2PI_Z (z : Z) : cos (2 * PI * IZR z) = 1.
Proof.
  destruct (Z_le_gt_dec 0 z) as [H|H].
  - rewrite <- (Z2Nat.id z H), <- INR_IZR_INZ. apply cos_2PI_nat.
  - replace (2 * PI * IZR z) with (- (2 * PI * IZR (- z)))
      by (rewrite opp_IZR; ring).
    rewrite cos_neg.
    rewrite <- (Z2Nat.id (- z)) by lia.
    rewrite <- INR_IZR_INZ. apply cos_2PI_nat.
Qed.

Lemma sin_PI_Z (z : Z) : sin (PI * IZR z) = 0.
Proof. apply sin_eq_0_1. exists z. ring. Qed.

(** Telescoping: [2 sin(w/2) cos(k w) = sin((k+1/2)w) - sin((k-1/2)w)]. *)
Lemma sin_half_cos (k w : R) :
  sin (w / 2) * (2 * cos (k * w)) = sin ((k + 1 / 2) * w) - sin ((k - 1 / 2) * w).
Proof.
  replace ((k + 1 / 2) * w) with (k * w + w / 2) by field.
  replace ((k - 1 / 2) * w) with (k * w - w / 2) by field.
  rewrite sin_plus, sin_minus. ring.
Qed.

Lemma sin_half_cos_sum (w : R) (c : nat) :
  sin (w / 2) * sumR (map (fun k => 2 * cos (INR k * w)) (seq 1 c))
  = sin ((INR c + 1 / 2) * w) - sin (w / 2).
Proof.
  induction c as [|c IH].
  - simpl. replace ((0 + 1 / 2) * w) with (w / 2) by field. ring.
  - rewrite seq_S, map_app, sumR_app. cbn [map sumR fold_right].
    change (1 + c)%nat with (S c).
    rewrite Rmult_plus_distr_l, IH, Rplus_0_r, sin_half_cos, S_INR.
    replace ((INR c + 1 - 1 / 2) * w) with ((INR c + 1 / 2) * w) by field.
    ring.
Qed.

Lemma dirichlet_sin (h : nat) (w : R) :
  (1 <= h)%nat ->
  sin (w / 2) * dirichlet h w = sin (INR h * w) * cos (w / 2).
Proof.
  intros Hh. unfold dirichlet.
  rewrite !Rmult_plus_distr_l, sin_half_cos_sum.
  replace (INR (h - 1)) with (INR h - 1) by (rewrite minus_INR by lia; reflexivity).
  replace ((INR h - 1 + 1 / 2) * w) with (INR h * w - w / 2) by field.
  rewrite sin_minus. ring.
Qed.

(** At a multiple of [2 pi] every term of the kernel is one. *)
Lemma dirichlet_period (h : nat) (q : Z) :
  (1 <= h)%nat -> dirichlet h (2 * PI * IZR q) = 2 * INR h.
Proof.
  intros Hh. unfold dirichlet.
  assert (Hc : forall k : nat, cos (INR k * (2 * PI * IZR q)) = 1).
  { intros k. rewrite INR_IZR_INZ.
    replace (IZR (Z.of_nat k) * (2 * PI * IZR q))
      with (2 * PI * IZR (Z.of_nat k * q)) by (rewrite mult_IZR; ring).
    apply cos_2PI_Z. }
  rewrite Hc.
  rewrite (sumR_map_ext _ (fun _ => 2)) by (intros k _; rewrite Hc; ring).
  assert (Hs : forall c s, sumR (map (fun _ : nat => 2) (seq s c)) = 2 * INR c).
  { induction c as [|c IH]; intros s.
    - simpl. ring.
    - simpl seq. simpl map. simpl sumR. rewrite IH, S_INR. ring. }
  rewrite Hs, minus_INR by lia. simpl. ring.
Qed.

(** Away from the multiples of [N = 2h] the kernel vanishes. *)
Lemma dirichlet_zero (h : nat) (m : Z) :
  (1 <= h)%nat ->
  ~ (Z.of_nat (2 * h) | m)%Z ->
  dirichlet h (2 * PI * IZR m / INR (2 * h)) = 0.
Proof.
  intros Hh Hnd.
  assert (HN : INR (2 * h) = 2 * INR h) by (rewrite mult_INR; simpl; ring).
  assert (Hh0 : INR h <> 0) by (apply not_0_INR; lia).
  set (w := 2 * PI * IZR m / INR (2 * h)).
  assert (Hs : sin (w / 2) <> 0).
  { intros Hs. apply sin_eq_0_0 in Hs. destruct Hs as [k Hk].
    apply Hnd. exists k.
    assert (Hpi := PI_RGT_0).
    assert (E : IZR m = IZR k * (2 * INR h)).
    { unfold w in Hk. rewrite HN in Hk.
      assert (E' : PI * IZR m = PI * (IZR k * (2 * INR h))).
      { replace (PI * IZR m) with (2 * PI * IZR m / (2 * INR h) / 2 * (2 * INR h))
          by (field; exact Hh0).
        rewrite Hk. ring. }
      apply Rmult_eq_reg_l in E'; [exact E'|lra]. }
    apply eq_IZR. rewrite E, mult_IZR, <- INR_IZR_INZ, HN. reflexivity. }
  assert (H := dirichlet_sin h w Hh).
  assert (Hhw : INR h * w = PI * IZR m).
  { unfold w. rewrite HN. field. exact Hh0. }
  rewrite Hhw, sin_PI_Z, Rmult_0_l in H.
  apply Rmult_integral in H. destruct H as [H|H]; [contradiction|exact H].
Qed.

(** ** The transform-domain autocorrelation *)

Import Fft.

Lemma resize_nth (x : list R) (N j : nat) :
  (length x <= N)%nat -> nth j (resize x N) 0 = nth j x 0.
Proof.
  intros H. unfold resize. rewrite firstn_all2 by exact H.
  destruct (Nat.lt_ge_cases j (length x)) as [Hj|Hj].
  - now rewrite app_nth1.
  - rewrite app_nth2 by exact Hj. rewrite nth_repeat.
    now rewrite nth_overflow.
Qed.

Lemma Csum_re {A : Type} (g : A -> C) (l : list A) :
  Cre (Csum (map g l)) = sumR (map (fun a => Cre (g a)) l).
Proof. induction l as [|a l IH]; simpl; [reflexivity | now rewrite <- IH]. Qed.

Lemma Csum_im {A : Type} (g : A -> C) (l : list A) :
  Cim (Csum (map g l)) = sumR (map (fun a => Cim (g a)) l).
Proof. induction l as [|a l IH]; simpl; [reflexivity | now rewrite <- IH]. Qed.

Lemma dft_coeff_re (x : list R) (N k : nat) :
  (length x <= N)%nat ->
  Cre (dft_coeff (resize x N) N k)
  = sumR (map (fun j => nth j x 0 * cos (angle j k N)) (seq 0 (length x))).
Proof.
  intros H. unfold dft_coeff. rewrite Csum_re.
  rewrite <- (sumR_seq_extend _ (length x) N H).
  - apply sumR_map_ext. intros j _. rewrite resize_nth by exact H.
    unfold Cmul, Cexp, Cre, Cim. simpl. rewrite cos_neg. ring.
  - intros j Hj. rewrite nth_overflow by lia. ring.
Qed.

Lemma dft_coeff_im (x : list R) (N k : nat) :
  (length x <= N)%nat ->
  Cim (dft_coeff (resize x N) N k)
  = - sumR (map (fun j => nth j x 0 * sin (angle j k N)) (seq 0 (length x))).
Proof.
  intros H. unfold dft_coeff. rewrite Csum_im.
  rewrite <- (sumR_seq_extend _ (length x) N H).
  - replace (- sumR (map (fun j => nth j x 0 * sin (angle j k N)) (seq 0 N)))
      with (-1 * sumR (map (fun j => nth j x 0 * sin (angle j k N)) (seq 0 N)))
      by ring.
    rewrite <- sumR_map_scal.
    apply sumR_map_ext. intros j _. rewrite resize_nth by exact H.
    unfold Cmul, Cexp, Cre, Cim. simpl. rewrite sin_neg. ring.
  - intros j Hj. rewrite nth_overflow by lia. ring.
Qed.

Lemma sumR_list_prod {A B : Type} (f : A -> B -> R) (l : list A) (l' : list B) :
  sumR (map (fun a => sumR (map (f a) l')) l)
  = sumR (map (fun p => f (fst p) (snd p)) (list_prod l l')).
Proof.
  induction l as [|a l IH]; simpl; [reflexivity|].
  rewrite map_app, sumR_app, map_map, IH. reflexivity.
Qed.

Lemma power_re (x : list R) (N k : nat) :
  (length x <= N)%nat -> (0 < N)%nat ->
  let X := dft_coeff (resize x N) N k in
  Cre (Cmul X (Cconj X))
  = sumR (map (fun p => pair_weight x p * cos (INR k * lag_angle N p))
              (sample_pairs x)).
Proof.
  intros H HN X. subst X.
  assert (HN0 : INR N <> 0) by (apply not_0_INR; lia).
  unfold Cmul, Cconj. cbn [Cre Cim fst snd].
  fold (Cre (dft_coeff (resize x N) N k)).
  fold (Cim (dft_coeff (resize x N) N k)).
  rewrite dft_coeff_re, dft_coeff_im by exact H.
  set (n := length x).
  set (A := fun j => nth j x 0 * cos (angle j k N)).
  set (B := fun j => nth j x 0 * sin (angle j k N)).
  replace (sumR (map A (seq 0 n)) * sumR (map A (seq 0 n))
           - - sumR (map B (seq 0 n)) * - - sumR (map B (seq 0 n)))
    with (sumR (map A (seq 0 n)) * sumR (map A (seq 0 n))
          + sumR (map B (seq 0 n)) * sumR (map B (seq 0 n))) by ring.
  rewrite !sumR_map_mult, <- sumR_map_plus.
  rewrite (sumR_map_ext _
             (fun j => sumR (map (fun l => A j * A l + B j * B l) (seq 0 n))))
    by (intros j _; now rewrite <- sumR_map_plus).
  rewrite (sumR_list_prod (fun j l => A j * A l + B j * B l)).
  apply sumR_map_ext. intros [j l] _. unfold A, B, pair_weight, lag_angle.
  cbn [fst snd].
  replace (INR k * (2 * PI * (INR j - INR l) / INR N))
    with (angle j k N - angle l k N) by (unfold angle; field; exact HN0).
  rewrite cos_minus. ring.
Qed.

Lemma power_im (z : C) : Cim (Cmul z (Cconj z)) = 0.
Proof. unfold Cmul, Cconj. cbn [Cre Cim fst snd]. ring. Qed.

Lemma map2_map_r {A B T : Type} (f : A -> B -> T) (g : A -> B) (l : list A) :
  map2 f l (map g l) = map (fun a => f a (g a)) l.
Proof. induction l as [|a l IH]; simpl; [reflexivity | now rewrite IH]. Qed.

Lemma nth_map_seq {A : Type} (f : nat -> A) (d : A) (len k : nat) :
  forall start, (k < len)%nat -> nth k (map f (seq start len)) d = f (start + k)%nat.
Proof.
  revert k. induction len as [|len IH]; intros k start Hk; [lia|].
  destruct k as [|k]; simpl.
  - f_equal. lia.
  - rewrite IH by lia. f_equal. lia.
Qed.

Lemma cos_product (a b : R) :
  cos a * cos b = (cos (a + b) + cos (a - b)) / 2.
Proof. rewrite cos_plus, cos_minus. field. Qed.

Lemma kernel_dirichlet (h : nat) (u v : R) :
  cos (INR 0 * u)
  + sumR (map (fun k => 2 * (cos (INR k * u) * cos (INR k * v))) (seq 1 (h - 1)))
  + cos (INR h * u) * cos (INR h * v)
  = (dirichlet h (u + v) + dirichlet h (u - v)) / 2.
Proof.
  unfold dirichlet.
  rewrite (sumR_map_ext (fun k => 2 * (cos (INR k * u) * cos (INR k * v)))
             (fun k => / 2 * (2 * cos (INR k * (u + v)) + 2 * cos (INR k * (u - v))))).
  - rewrite sumR_map_scal, sumR_map_plus.
    rewrite (cos_product (INR h * u)).
    simpl INR at 1. rewrite Rmult_0_l, cos_0.
    replace (INR h * u + INR h * v) with (INR h * (u + v)) by ring.
    replace (INR h * u - INR h * v) with (INR h * (u - v)) by ring.
    field.
  - intros k _. rewrite cos_product.
    replace (INR k * u + INR k * v) with (INR k * (u + v)) by ring.
    replace (INR k * u - INR k * v) with (INR k * (u - v)) by ring.
    field.
Qed.

Lemma irfft_power_nth (x : list R) (h t : nat) :
  (1 <= h)%nat -> (length x <= 2 * h)%nat -> (t < 2 * h)%nat ->
  let N := (2 * h)%nat in
  let v := 2 * PI * INR t / INR N in
  let fft := rfft x N in
  nth t (irfft (map2 Cmul fft (map Cconj fft))) 0
  = sumR (map (fun p => pair_weight x p
                        * ((dirichlet h (lag_angle N p + v)
                            + dirichlet h (lag_angle N p - v)) / 2))
              (sample_pairs x)) / INR N.
Proof.
  intros Hh Hn Ht N v fft.
  assert (HN0 : INR N <> 0) by (apply not_0_INR; lia).
  assert (Hhalf : (N / 2 = h)%nat).
  { unfold N. rewrite Nat.mul_comm. apply Nat.div_mul. lia. }
  subst fft. unfold rfft. rewrite map2_map_r, map_map, Hhalf.
  unfold irfft. rewrite length_map, length_seq.
  replace (2 * (h + 1 - 1))%nat with N by lia.
  rewrite Hhalf.
  rewrite (nth_map_seq _ 0 N t 0 Ht). cbn [Nat.add].
  f_equal.
  set (P := fun k => Cmul (dft_coeff (resize x N) N k)
                          (Cconj (dft_coeff (resize x N) N k))).
  set (S := fun k => sumR (map (fun p => pair_weight x p * cos (INR k * lag_angle N p))
                               (sample_pairs x))).
  assert (HP : forall k, (k < h + 1)%nat ->
               nth k (map P (seq 0 (h + 1))) C0 = P k).
  { intros k Hk. now rewrite (nth_map_seq P C0 (h + 1) k 0 Hk). }
  assert (HS : forall k, Cre (P k) = S k).
  { intros k. unfold P, S. apply power_re; lia. }
  rewrite (HP 0%nat) by lia. rewrite (HP h) by lia. rewrite !HS.
  rewrite (sumR_map_ext _ (fun k => 2 * (S k * cos (INR k * v)))).
  2:{ intros k Hk. apply in_seq in Hk. rewrite HP by lia.
      unfold Cmul at 1. cbn [Cre fst]. fold (Cre (P k)). fold (Cim (P k)).
      rewrite HS. unfold P at 1. rewrite power_im.
      unfold Cexp. cbn [Cre Cim fst snd].
      replace (angle k t N) with (INR k * v) by (unfold angle, v; field; exact HN0).
      ring. }
  replace (PI * INR t) with (INR h * v).
  2:{ unfold v, N. rewrite mult_INR. simpl INR.
      field. apply not_0_INR. lia. }
  (* every partial sum is a sum over the pairs: gather them *)
  rewrite (sumR_map_ext (fun k => 2 * (S k * cos (INR k * v)))
             (fun k => sumR (map (fun p => pair_weight x p
                                    * (2 * (cos (INR k * lag_angle N p) * cos (INR k * v))))
                                 (sample_pairs x)))).
  2:{ intros k _. unfold S. rewrite <- sumR_map_scal_r, <- sumR_map_scal.
      apply sumR_map_ext. intros p _. ring. }
  rewrite (sumR_map_swap
             (fun k p => pair_weight x p
                         * (2 * (cos (INR k * lag_angle N p) * cos (INR k * v))))).
  unfold S. rewrite <- (sumR_map_scal_r (cos (INR h * v))), <- !sumR_map_plus.
  apply sumR_map_ext. intros p _.
  rewrite <- kernel_dirichlet, sumR_map_scal. ring.
Qed.

Lemma dirichlet_lag (h : nat) (m : Z) :
  (1 <= h)%nat -> (Z.abs m < Z.of_nat (2 * h))%Z ->
  dirichlet h (2 * PI * IZR m / INR (2 * h))
  = if (m =? 0)%Z then 2 * INR h else 0.
Proof.
  intros Hh Hm. destruct (m =? 0)%Z eqn:E.
  - apply Z.eqb_eq in E. subst m.
    replace (2 * PI * 0 / INR (2 * h)) with (2 * PI * 0).
    + now apply dirichlet_period.
    + field. apply not_0_INR. lia.
  - apply Z.eqb_neq in E. apply dirichlet_zero; [exact Hh|].
    intros [k Hk]. subst m. rewrite Z.abs_mul in Hm.
    assert (Hk : (k = 0 \/ 1 <= Z.abs k)%Z) by lia.
    destruct Hk as [Hk|Hk]; [subst k; lia|].
    rewrite (Z.abs_eq (Z.of_nat (2 * h))) in Hm by lia. nia.
Qed.

Lemma shifted_pair_sum (x : list R) (t : nat) :
  sumR (map (fun j => sumR (map (fun l => if (l =? j + t)%nat
                                           then nth j x 0 * nth l x 0 else 0)
                                (seq 0 (length x))))
            (seq 0 (length x)))
  = autocorr_direct x t.
Proof.
  unfold autocorr_direct.
  rewrite (sumR_map_ext _
             (fun j => if (j + t <? length x)%nat
                       then nth j x 0 * nth (j + t) x 0 else 0)).
  - rewrite (sumR_seq_extend _ (length x - t) (length x)); [|lia|].
    + apply sumR_map_ext. intros j Hj. apply in_seq in Hj.
      replace (j + t <? length x)%nat with true; [reflexivity|].
      symmetry. apply Nat.ltb_lt. lia.
    + intros j Hj.
      replace (j + t <? length x)%nat with false; [reflexivity|].
      symmetry. apply Nat.ltb_ge. lia.
  - intros j _.
    rewrite (sumR_seq_single (fun l => nth j x 0 * nth l x 0) (j + t) (length x) 0).
    reflexivity.
Qed.


Lemma autocorr_fft_nth (x : list R) (h t : nat) :
  (1 <= h)%nat -> (length x <= h)%nat -> (t < length x)%nat ->
  nth t (autocorr_fft x (2 * h)) 0 = autocorr_direct x t.
Proof.
  intros Hh Hn Ht. unfold autocorr_fft.
  rewrite nth_firstn.
  replace (t <? length x)%nat with true by (symmetry; apply Nat.ltb_lt; exact Ht).
  rewrite irfft_power_nth by lia.
  assert (HN : INR (2 * h) = 2 * INR h) by (rewrite mult_INR; simpl; ring).
  assert (Hh0 : INR h <> 0) by (apply not_0_INR; lia).
  set (F := fun j l : nat =>
              INR h * ((if (l =? j + t)%nat then nth j x 0 * nth l x 0 else 0)
                       + (if (j =? l + t)%nat then nth j x 0 * nth l x 0 else 0))).
  rewrite (sumR_map_ext _ (fun p => F (fst p) (snd p))).
  - unfold sample_pairs. rewrite <- (sumR_list_prod F). unfold F.
    rewrite (sumR_map_ext _
      (fun j => INR h *
        (sumR (map (fun l => if (l =? j + t)%nat then nth j x 0 * nth l x 0 else 0)
                   (seq 0 (length x)))
         + sumR (map (fun l => if (j =? l + t)%nat then nth j x 0 * nth l x 0 else 0)
                     (seq 0 (length x))))))
      by (intros j _; now rewrite sumR_map_scal, sumR_map_plus).
    rewrite sumR_map_scal, sumR_map_plus, shifted_pair_sum.
    rewrite (sumR_map_swap
               (fun j l => if (j =? l + t)%nat then nth j x 0 * nth l x 0 else 0)).
    rewrite (sumR_map_ext _
      (fun l => sumR (map (fun j => if (j =? l + t)%nat
                                    then nth l x 0 * nth j x 0 else 0)
                          (seq 0 (length x))))).
    + rewrite shifted_pair_sum, HN. field. exact Hh0.
    + intros l _. apply sumR_map_ext. intros j _.
      destruct (j =? l + t)%nat; ring.
  - intros [j l] Hp. unfold sample_pairs in Hp.
    apply in_prod_iff in Hp. destruct Hp as [Hj Hl].
    apply in_seq in Hj. apply in_seq in Hl.
    unfold pair_weight, lag_angle, F. cbn [fst snd].
    replace (2 * PI * (INR j - INR l) / INR (2 * h) + 2 * PI * INR t / INR (2 * h))
      with (2 * PI * IZR (Z.of_nat j - Z.of_nat l + Z.of_nat t) / INR (2 * h)).
    2:{ rewrite plus_IZR, minus_IZR, <- !INR_IZR_INZ. field. rewrite HN. lra. }
    replace (2 * PI * (INR j - INR l) / INR (2 * h) - 2 * PI * INR t / INR (2 * h))
      with (2 * PI * IZR (Z.of_nat j - Z.of_nat l - Z.of_nat t) / INR (2 * h)).
    2:{ rewrite !minus_IZR, <- !INR_IZR_INZ. field. rewrite HN. lra. }
    rewrite !dirichlet_lag by lia.
    destruct (Nat.eqb_spec l (j + t)) as [E1|E1],
             (Nat.eqb_spec j (l + t)) as [E2|E2].
    + replace (Z.of_nat j - Z.of_nat l + Z.of_nat t =? 0)%Z with true
        by (symmetry; apply Z.eqb_eq; lia).
      replace (Z.of_nat j - Z.of_nat l - Z.of_nat t =? 0)%Z with true
        by (symmetry; apply Z.eqb_eq; lia).
      field.
    + replace (Z.of_nat j - Z.of_nat l + Z.of_nat t =? 0)%Z with true
        by (symmetry; apply Z.eqb_eq; lia).
      replace (Z.of_nat j - Z.of_nat l - Z.of_nat t =? 0)%Z with false
        by (symmetry; apply Z.eqb_neq; lia).
      field.
    + replace (Z.of_nat j - Z.of_nat l + Z.of_nat t =? 0)%Z with false
        by (symmetry; apply Z.eqb_neq; lia).
      replace (Z.of_nat j - Z.of_nat l - Z.of_nat t =? 0)%Z with true
        by (symmetry; apply Z.eqb_eq; lia).
      field.
    + replace (Z.of_nat j - Z.of_nat l + Z.of_nat t =? 0)%Z with false
        by (symmetry; apply Z.eqb_neq; lia).
      replace (Z.of_nat j - Z.of_nat l - Z.of_nat t =? 0)%Z with false
        by (symmetry; apply Z.eqb_neq; lia).
      field.
Qed.

(** ** Transform size *)

Lemma ceil_log2_from_spec (m fuel : nat) :
  forall e,
    (m <= 2 ^ (e + fuel))%nat ->
    (forall e', (e' < e)%nat -> (2 ^ e' < m)%nat) ->
    (m <= 2 ^ ceil_log2_from fuel e m)%nat
    /\ (forall e', (e' < ceil_log2_from fuel e m)%nat -> (2 ^ e' < m)%nat).
Proof.
  induction fuel as [|fuel IH]; intros e Hub Hlo; simpl.
  - rewrite Nat.add_0_r in Hub. now split.
  - destruct (m <=? 2 ^ e)%nat eqn:E.
    + apply Nat.leb_le in E. now split.
    + apply Nat.leb_gt in E. apply IH.
      * now replace (S e + fuel)%nat with (e + S fuel)%nat by lia.
      * intros e' He'. destruct (Nat.eq_dec e' e) as [->|Hne]; [exact E|].
        apply Hlo. lia.
Qed.

Lemma ceil_log2_spec (m : nat) :
  (m <= 2 ^ ceil_log2 m)%nat
  /\ (forall e', (e' < ceil_log2 m)%nat -> (2 ^ e' < m)%nat).
Proof.
  unfold ceil_log2. apply ceil_log2_from_spec.
  - simpl. apply Nat.lt_le_incl. apply Nat.pow_gt_lin_r. lia.
  - intros e' He'. lia.
Qed.

Lemma fft_size_nonempty (n : nat) :
  (1 <= n)%nat -> fft_size n = Ok (2 ^ ceil_log2 (2 * n))%nat.
Proof. destruct n as [|n]; [lia | reflexivity]. Qed.

Lemma fft_size_even (n N : nat) :
  fft_size n = Ok N ->
  exists h, N = (2 * h)%nat /\ (1 <= h)%nat /\ (n <= h)%nat.
Proof.
  intros H.
  assert (Hn : (1 <= n)%nat) by (destruct n; [discriminate | lia]).
  rewrite (fft_size_nonempty n Hn) in H.
  assert (HN : N = (2 ^ ceil_log2 (2 * n))%nat) by congruence.
  subst N. clear H.
  destruct (ceil_log2_spec (2 * n)) as [Hub _].
  remember (ceil_log2 (2 * n)) as e eqn:He. clear He.
  destruct e as [|e].
  - rewrite Nat.pow_0_r in Hub. lia.
  - exists (2 ^ e)%nat. rewrite Nat.pow_succ_r' in Hub.
    rewrite Nat.pow_succ_r'. lia.
Qed.

(** ** Energy term *)

Lemma cumsum_from_nth (l : list R) :
  forall acc k,
    (k <= length l)%nat ->
    nth k (acc :: cumsum_from acc l) 0 = acc + sumR (firstn k l).
Proof.
  induction l as [|a l IH]; intros acc k Hk.
  - simpl in Hk. replace k with 0%nat by lia. simpl. ring.
  - destruct k as [|k]; [simpl; ring|].
    change (nth (S k) (acc :: cumsum_from acc (a :: l)) 0)
      with (nth k ((acc + a) :: cumsum_from (acc + a) l) 0).
    rewrite IH by (simpl in Hk; lia).
    simpl. ring.
Qed.

Lemma firstn_map_nth (l : list R) (k : nat) :
  (k <= length l)%nat -> firstn k l = map (fun j => nth j l 0) (seq 0 k).
Proof.
  revert k. induction l as [|a l IH]; intros k Hk.
  - simpl in Hk. replace k with 0%nat by lia. reflexivity.
  - destruct k as [|k]; [reflexivity|].
    cbn [firstn seq map nth]. rewrite <- seq_shift, map_map.
    rewrite IH by (simpl in Hk; lia). reflexivity.
Qed.

Lemma cumsum_sq_nth (x : list R) (k : nat) :
  (k <= length x)%nat ->
  nth k (cumsum_sq x) 0 = sumR (map (fun j => nth j x 0 ^ 2) (seq 0 k)).
Proof.
  intros Hk. unfold cumsum_sq, cumsum.
  rewrite cumsum_from_nth by (now rewrite length_map).
  rewrite firstn_map, firstn_map_nth by exact Hk.
  rewrite map_map. ring.
Qed.

Lemma sumR_seq_split (f : nat -> R) (a b : nat) :
  sumR (map f (seq 0 (a + b))) = sumR (map f (seq 0 a)) + sumR (map f (seq a b)).
Proof. now rewrite seq_app, map_app, sumR_app. Qed.

Lemma m_array_nth (x : list R) (tau : nat) :
  (tau < length x)%nat -> nth tau (m_array x) 0 = energy x tau.
Proof.
  intros Ht. unfold m_array, energy.
  rewrite (nth_map_seq _ 0 (length x) tau 0 Ht). cbn [Nat.add].
  rewrite !cumsum_sq_nth by lia.
  replace (length x) with (tau + (length x - tau))%nat at 2 by lia.
  rewrite sumR_seq_split. ring.
Qed.

Lemma m_array_length (x : list R) : length (m_array x) = length x.
Proof. unfold m_array. now rewrite length_map, length_seq. Qed.

Lemma guard_zero_nth (m : list R) (tau : nat) :
  (tau < length m)%nat ->
  nth tau (guard_zero m) 0
  = if Reqb (nth tau m 0) 0 then epsilon else nth tau m 0.
Proof.
  revert tau. induction m as [|a m IH]; intros tau Ht; simpl in Ht; [lia|].
  destruct tau as [|tau]; [reflexivity|].
  apply IH. lia.
Qed.

Lemma map2_length {A B T : Type} (f : A -> B -> T) (l : list A) :
  forall l', length l = length l' -> length (map2 f l l') = length l.
Proof.
  induction l as [|a l IH]; intros [|b l'] H; simpl in *; try lia.
  rewrite IH; lia.
Qed.

Lemma map2_nth {A B T : Type} (f : A -> B -> T) (da : A) (db : B) (dt : T)
    (l : list A) :
  forall l' k, (k < length l)%nat -> length l = length l' ->
    nth k (map2 f l l') dt = f (nth k l da) (nth k l' db).
Proof.
  induction l as [|a l IH]; intros [|b l'] k Hk H; simpl in *; try lia.
  destruct k as [|k]; [reflexivity|]. apply IH; lia.
Qed.

Lemma autocorr_fft_length (x : list R) (h : nat) :
  (length x <= 2 * h)%nat -> length (autocorr_fft x (2 * h)) = length x.
Proof.
  intros H. unfold autocorr_fft, Fft.irfft, Fft.rfft.
  rewrite length_firstn, length_map, length_seq.
  rewrite map2_length by (symmetry; apply length_map).
  rewrite length_map, length_seq.
  replace (2 * h / 2)%nat with h by (rewrite Nat.mul_comm, Nat.div_mul; lia).
  lia.
Qed.

Lemma guarded_energy_nonzero (x : list R) (tau : nat) : guarded_energy x tau <> 0.
Proof.
  unfold guarded_energy. destruct (Reqb (energy x tau) 0) eqn:E.
  - unfold epsilon. lra.
  - now apply Reqb_false in E.
Qed.

Lemma normalized_square_difference_direct (x : list R) :
  x <> [] -> normalized_square_difference x = Ok (nsdf_direct x).
Proof.
  intros Hx. unfold normalized_square_difference.
  assert (Hn : (1 <= length x)%nat) by (destruct x; [congruence | simpl; lia]).
  assert (HN := fft_size_nonempty _ Hn). rewrite HN. cbn [bind].
  destruct (fft_size_even _ _ HN) as [h [-> [Hh Hle]]].
  f_equal.
  assert (La : length (map (Rmult 2) (autocorr_fft x (2 * h))) = length x)
    by (rewrite length_map; apply autocorr_fft_length; lia).
  assert (Lm : length (guard_zero (m_array x)) = length x)
    by (unfold guard_zero; now rewrite length_map, m_array_length).
  apply (nth_ext _ _ 0 0).
  - rewrite map2_length, La by congruence.
    unfold nsdf_direct. now rewrite length_map, length_seq.
  - intros tau Ht. rewrite map2_length in Ht by congruence. rewrite La in Ht.
    rewrite (map2_nth Rdiv 0 0 0) by congruence.
    unfold nsdf_direct. rewrite (nth_map_seq _ 0 (length x) tau 0 Ht).
    cbn [Nat.add].
    rewrite (nth_indep _ 0 (2 * 0)) by congruence.
    rewrite map_nth, autocorr_fft_nth by lia.
    rewrite guard_zero_nth by (now rewrite m_array_length).
    rewrite m_array_nth by exact Ht.
    reflexivity.
Qed.

Lemma nsdf_direct_length (x : list R) : length (nsdf_direct x) = length x.
Proof. unfold nsdf_direct. now rewrite length_map, length_seq. Qed.

Lemma nsdf_direct_nth (x : list R) (tau : nat) :
  (tau < length x)%nat ->
  nth tau (nsdf_direct x) 0 = 2 * autocorr_direct x tau / guarded_energy x tau.
Proof.
  intros Ht. unfold nsdf_direct.
  now rewrite (nth_map_seq _ 0 (length x) tau 0 Ht).
Qed.








(** ** Frame pitch detector *)

Lemma peak_picking_value (nsdf : list R) (thr : R) (p : nat * R) :
  In p (peak_picking nsdf thr) -> snd p = nth (fst p) nsdf 0.
Proof.
  destruct p as [i v]. intros H. apply peak_picking_In in H. simpl. tauto.
Qed.

Lemma mpm_pitch_detection_unfold (x : list R) (sr thr : R) (nsdf : list R) :
  normalized_square_difference x = Ok nsdf ->
  mpm_pitch_detection x sr thr
  = match peak_picking nsdf thr with
    | [] => Ok (None, None)
    | first :: rest =>
        let best := select_best_peak first rest in
        let lag := parabolic_interpolation nsdf (Z.of_nat (fst best)) in
        if Rltb 0 lag then Ok (Some (sr / lag), Some (snd best))
        else Ok (None, None)
    end.
Proof. intros H. unfold mpm_pitch_detection. now rewrite H. Qed.

(** C6. On a frame whose NSDF is computed, the detector returns "no
    estimate" when no peak is found and when the refined lag is not
    positive; otherwise it returns sample_rate / refined_lag together
    with the NSDF value at the chosen peak's integer index. *)
Theorem mpm_pitch_detection_spec (x : list R) (sample_rate threshold : R) :
  x <> [] ->
  exists nsdf,
    normalized_square_difference x = Ok nsdf
    /\ let peaks := peak_picking nsdf threshold in
       (peaks = [] ->
        mpm_pitch_detection x sample_rate threshold = Ok (None, None))
       /\ (forall first rest, peaks = first :: rest ->
             let best := select_best_peak first rest in
             let refined_lag :=
               parabolic_interpolation nsdf (Z.of_nat (fst best)) in
             In best peaks
             /\ (refined_lag <= 0 ->
                 mpm_pitch_detection x sample_rate threshold = Ok (None, None))
             /\ (0 < refined_lag ->
                 mpm_pitch_detection x sample_rate threshold
                 = Ok (Some (sample_rate / refined_lag),
                       Some (nth (fst best) nsdf 0)))).
Proof.
  intros Hx. exists (nsdf_direct x).
  assert (Hn := normalized_square_difference_direct x Hx).
  split; [exact Hn|]. intros peaks. subst peaks.
  rewrite (mpm_pitch_detection_unfold x sample_rate threshold _ Hn).
  split.
  - intros E. now rewrite E.
  - intros first rest E best lag. subst best lag. rewrite E.
    assert (Hin : In (select_best_peak first rest) (first :: rest))
      by apply select_best_peak_In.
    split; [exact Hin|]. cbv zeta. split.
    + intros Hle. now rewrite (proj2 (Rltb_false _ _) Hle).
    + intros Hlt. rewrite (proj2 (Rltb_true _ _) Hlt).
      rewrite <- E in Hin. now rewrite (peak_picking_value _ _ _ Hin).
Qed.

Lemma mpm_pitch_detection_cases (x : list R) (sample_rate threshold : R)
    (nsdf : list R) :
  normalized_square_difference x = Ok nsdf ->
  mpm_pitch_detection x sample_rate threshold = Ok (None, None)
  \/ exists frequency clarity,
       mpm_pitch_detection x sample_rate threshold
       = Ok (Some frequency, Some clarity)
       /\ (0 < sample_rate -> 0 < frequency).
Proof.
  intros Hn.
  rewrite (mpm_pitch_detection_unfold x sample_rate threshold _ Hn).
  destruct (peak_picking nsdf threshold) as [|first rest]; [now left|].
  cbv zeta. destruct (Rltb 0 _) eqn:E; [|now left].
  apply Rltb_true in E. right. do 2 eexists. split; [reflexivity|].
  intros Hsr. now apply Rdiv_lt_0_compat.
Qed.

Lemma mpm_pitch_detection_total (x : list R) (sample_rate threshold : R) :
  x <> [] -> exists res, mpm_pitch_detection x sample_rate threshold = Ok res.
Proof.
  intros Hx.
  destruct (mpm_pitch_detection_cases x sample_rate threshold _
              (normalized_square_difference_direct x Hx))
    as [H|[f [c [H _]]]]; rewrite H; eexists; reflexivity.
Qed.

(** C10. The detector's result is either absent in both fields or
    present in both, and a frequency obtained from a positive sample
    rate is strictly positive; it produces a result on every non-empty
    buffer. *)
Theorem mpm_pitch_detection_result (x : list R) (sample_rate threshold : R) :
  (x <> [] -> exists res, mpm_pitch_detection x sample_rate threshold = Ok res)
  /\ (forall res,
        mpm_pitch_detection x sample_rate threshold = Ok res ->
        res = (None, None)
        \/ exists frequency clarity,
             res = (Some frequency, Some clarity)
             /\ (0 < sample_rate -> 0 < frequency)).
Proof.
  split; [apply mpm_pitch_detection_total|].
  intros res Hres.
  destruct (normalized_square_difference x) as [nsdf|e] eqn:Hn.
  - destruct (mpm_pitch_detection_cases x sample_rate threshold nsdf Hn)
      as [H|[f [c [H Hpos]]]];
      rewrite H in Hres; injection Hres as <-; [now left|].
    right. now exists f, c.
  - unfold mpm_pitch_detection in Hres. rewrite Hn in Hres. discriminate.
Qed.

(** A frame of period two at 48 kHz is detected at 24 kHz with clarity one. *)
Lemma nsdf_direct_alternating :
  nsdf_direct [1; -1; 1; -1] = [1; -1; 1; -1].
Proof.
  unfold nsdf_direct, guarded_energy, energy, autocorr_direct, epsilon.
  simpl. rdecide. repeat (apply f_equal2; [field|]). reflexivity.
Qed.

Lemma mpm_pitch_detection_alternating :
  mpm_pitch_detection [1; -1; 1; -1] 48000 0.1 = Ok (Some 24000, Some 1).
Proof.
  rewrite (mpm_pitch_detection_unfold _ _ _ [1; -1; 1; -1]).
  - unfold peak_picking, peak_step. simpl. rdecide. simpl. rdecide. simpl.
    unfold select_best_peak, strong_clarity_threshold. simpl. rdecide. simpl.
    unfold parabolic_interpolation, item. simpl.
    replace (Rabs (-1 - 2 * 1 + -1)) with 4
      by (rewrite Rabs_left; lra).
    rdecide. do 3 f_equal. field.
  - rewrite normalized_square_difference_direct by discriminate.
    now rewrite nsdf_direct_alternating.
Qed.

Lemma mpm_pitch_detection_spec_witness :
  exists nsdf,
    normalized_square_difference [1; -1; 1; -1] = Ok nsdf
    /\ (peak_picking nsdf 0.1 = [] ->
        mpm_pitch_detection [1; -1; 1; -1] 48000 0.1 = Ok (None, None)).
Proof.
  destruct (mpm_pitch_detection_spec [1; -1; 1; -1] 48000 0.1) as [nsdf [H [H0 _]]].
  - discriminate.
  - exists nsdf. split; [exact H | exact H0].
Defined.

(** ** Frame tracker *)

Lemma mapM_ok {A B : Type} (f : A -> result B) (P : A -> B -> Prop) (l : list A) :
  (forall a, In a l -> exists b, f a = Ok b /\ P a b) ->
  exists bs, mapM f l = Ok bs /\ Forall2 P l bs.
Proof.
  induction l as [|a l IH]; intros H; simpl.
  - exists []. split; [reflexivity | constructor].
  - destruct (H a (or_introl eq_refl)) as [b [Hb HP]].
    destruct IH as [bs [Hbs HF]]; [intros a' Ha'; apply H; now right|].
    exists (b :: bs). rewrite Hb, Hbs. split; [reflexivity | now constructor].
Qed.

Lemma py_slice_length {A : Type} (l : list A) (start len : Z) :
  (0 <= start)%Z -> (0 <= len)%Z -> (start + len <= Z.of_nat (length l))%Z ->
  length (py_slice l start (start + len)) = Z.to_nat len.
Proof.
  intros Hs Hl Hb. unfold py_slice.
  replace (start <? 0)%Z with false by (symmetry; apply Z.ltb_ge; lia).
  replace (start + len <? 0)%Z with false by (symmetry; apply Z.ltb_ge; lia).
  rewrite !Z.min_l by lia.
  rewrite length_firstn, length_skipn.
  replace (start + len - start)%Z with len by lia. lia.
Qed.

Lemma track_frame_ok (audio : list R) (sr : R) (L H : Z) (thr fmin fmax : R) (i : Z) :
  sr <> 0 -> (0 < L)%Z -> (0 <= i * H)%Z ->
  (i * H + L <= Z.of_nat (length audio))%Z ->
  exists row,
    track_frame audio sr L H thr fmin fmax i = Ok row
    /\ row_time row = IZR (i * H) / sr.
Proof.
  intros Hsr HL Hs Hb. unfold track_frame.
  rewrite (proj2 (Reqb_false _ _) Hsr). cbn [bind].
  assert (Hne : py_slice audio (i * H) (i * H + L) <> []).
  { intros E. assert (Hlen := py_slice_length audio (i * H) L Hs ltac:(lia) Hb).
    rewrite E in Hlen. simpl in Hlen. lia. }
  destruct (mpm_pitch_detection_total _ sr thr Hne) as [est Hest].
  rewrite Hest. cbn [bind].
  destruct (fst est) as [freq|].
  - destruct (Rleb fmin freq && Rleb freq fmax); eexists; split; reflexivity.
  - eexists; split; reflexivity.
Qed.

(** With positive lengths and a non-zero sample rate, a non-negative
    frame count is the number of rows, and row [k] is stamped [k*H/sr]. *)
Lemma detect_pitch_mpm_rows (audio : list R) (sr : R) (L H : Z) (thr fmin fmax : R) :
  sr <> 0 -> (0 < L)%Z -> (0 < H)%Z ->
  (0 <= num_frames (Z.of_nat (length audio)) L H)%Z ->
  exists rows,
    detect_pitch_mpm audio sr L H thr fmin fmax = Ok rows
    /\ Z.of_nat (length rows) = num_frames (Z.of_nat (length audio)) L H
    /\ times_of rows
       = map (fun k => IZR (Z.of_nat k * H) / sr) (seq 0 (length rows)).
Proof.
  intros Hsr HL HH Hnf. unfold detect_pitch_mpm.
  replace (H =? 0)%Z with false by (symmetry; apply Z.eqb_neq; lia).
  set (nf := num_frames (Z.of_nat (length audio)) L H) in *.
  replace (nf <? 0)%Z with false by (symmetry; apply Z.ltb_ge; lia).
  destruct (mapM_ok (track_frame audio sr L H thr fmin fmax)
              (fun k row => row_time row = IZR (k * H) / sr)
              (map Z.of_nat (seq 0 (Z.to_nat nf)))) as [rows [Hrows HF]].
  - intros k Hk. apply in_map_iff in Hk. destruct Hk as [j [<- Hj]].
    apply in_seq in Hj.
    apply track_frame_ok; [exact Hsr | exact HL | nia |].
    unfold nf, num_frames in *.
    assert (Hd := Z.mul_div_le (Z.of_nat (length audio) - L) H HH).
    nia.
  - exists rows. split; [exact Hrows|].
    assert (Hlen : length rows = Z.to_nat nf).
    { apply Forall2_length in HF. now rewrite length_map, length_seq in HF. }
    split; [lia|]. rewrite Hlen. unfold times_of.
    clear Hrows Hlen. revert HF.
    generalize (seq 0 (Z.to_nat nf)). intros ks.
    revert rows. induction ks as [|k ks IH]; intros rows HF;
      inversion HF as [|? ? ? ? Hk Hrest]; subst; simpl; [reflexivity|].
    rewrite Hk. f_equal. now apply IH.
Qed.

Lemma detect_pitch_mpm_negative_count (audio : list R) (sr : R) (L H : Z)
    (thr fmin fmax : R) :
  H <> 0%Z -> (num_frames (Z.of_nat (length audio)) L H < 0)%Z ->
  detect_pitch_mpm audio sr L H thr fmin fmax = Raise ValueError.
Proof.
  intros HH Hnf. unfold detect_pitch_mpm.
  replace (H =? 0)%Z with false by (symmetry; apply Z.eqb_neq; lia).
  replace (_ <? 0)%Z with true by (symmetry; apply Z.ltb_lt; lia).
  reflexivity.
Qed.

(** A frame count of exactly zero gives the empty series. *)
Lemma detect_pitch_mpm_zero_count :
  num_frames 3 4 2 = 0%Z
  /\ detect_pitch_mpm [0.5; -0.5; 0.5] 48000 4 2 0.1 50 2000 = Ok [].
Proof. split; reflexivity. Qed.

(** C7 (fails on the code). A signal of three samples with the default
    frame length 2048 and hop 512 has frame count
    1 + floor((3 - 2048) / 512) = -3 <= 0; the tracker does not return
    an empty series but raises [ValueError] when it allocates its
    arrays. *)
Theorem detect_pitch_mpm_short_signal :
  num_frames 3 2048 512 = (-3)%Z
  /\ detect_pitch_mpm [0.5; -0.5; 0.5] 48000 2048 512 0.1 50 2000
     = Raise ValueError.
Proof.
  split; [reflexivity|].
  apply detect_pitch_mpm_negative_count; [discriminate | reflexivity].
Qed.

(** ** Input validation *)

Lemma peak_picking_short (nsdf : list R) (thr : R) :
  (length nsdf <= 2)%nat -> peak_picking nsdf thr = [].
Proof.
  intros H. unfold peak_picking.
  now replace (length nsdf - 1 - 1)%nat with 0%nat by lia.
Qed.

Lemma mpm_pitch_detection_empty (sr thr : R) :
  mpm_pitch_detection [] sr thr = Raise OverflowError.
Proof. reflexivity. Qed.

Lemma mpm_pitch_detection_short (x : list R) (sr thr : R) :
  (1 <= length x <= 2)%nat -> mpm_pitch_detection x sr thr = Ok (None, None).
Proof.
  intros H.
  assert (Hx : x <> []) by (destruct x; [simpl in H; lia | discriminate]).
  rewrite (mpm_pitch_detection_unfold x sr thr _
             (normalized_square_difference_direct x Hx)).
  rewrite peak_picking_short; [reflexivity|].
  rewrite nsdf_direct_length. lia.
Qed.

(** C9 (fails on the code): a frame of two samples is not rejected,
    and neither are a negative sample rate and a threshold outside
    (0,1): the detector returns a normal result, here even a negative
    frequency. *)
Lemma invalid_input_not_rejected :
  (length [1; -1]%R < 3)%nat
  /\ mpm_pitch_detection [1; -1] 48000 0.1 = Ok (None, None)
  /\ mpm_pitch_detection [1; -1; 1; -1] (-48000) (-1) = Ok (Some (-24000), Some 1).
Proof.
  split; [simpl; lia|]. split.
  - apply mpm_pitch_detection_short. simpl. lia.
  - rewrite (mpm_pitch_detection_unfold _ _ _ [1; -1; 1; -1]).
    + unfold peak_picking, peak_step. simpl. rdecide. simpl. rdecide. simpl.
      unfold select_best_peak, strong_clarity_threshold. simpl. rdecide. simpl.
      unfold parabolic_interpolation, item. simpl.
      replace (Rabs (-1 - 2 * 1 + -1)) with 4
        by (rewrite Rabs_left; lra).
      rdecide. do 3 f_equal. field.
    + rewrite normalized_square_difference_direct by discriminate.
      now rewrite nsdf_direct_alternating.
Qed.

(** C9 (amended). The code validates nothing. The detector raises only
    on the empty frame; on every non-empty frame it returns a normal
    result whatever the sample rate and the threshold are, and that
    result is "no estimate" when the frame has one or two samples. The
    tracker raises on a hop length of zero. *)
Theorem input_validation_absent (x : list R) (sample_rate threshold : R) :
  (x = [] ->
   mpm_pitch_detection x sample_rate threshold = Raise OverflowError)
  /\ ((1 <= length x <= 2)%nat ->
      mpm_pitch_detection x sample_rate threshold = Ok (None, None))
  /\ (x <> [] ->
      exists res, mpm_pitch_detection x sample_rate threshold = Ok res)
  /\ (forall frame_length fmin fmax,
        detect_pitch_mpm x sample_rate frame_length 0 threshold fmin fmax
        = Raise ZeroDivisionError).
Proof.
  split; [|split; [|split]].
  - intros ->. apply mpm_pitch_detection_empty.
  - apply mpm_pitch_detection_short.
  - apply mpm_pitch_detection_total.
  - reflexivity.
Qed.

(** ** Dominant pitch aggregator *)

Lemma insert_idx_perm (key : nat -> R) (i : nat) (l : list nat) :
  Permutation (insert_idx key i l) (i :: l).
Proof.
  induction l as [|j l IH]; simpl; [reflexivity|].
  destruct (Rleb (key i) (key j)); [reflexivity|].
  rewrite IH. apply perm_swap.
Qed.

Lemma insert_idx_sorted (key : nat -> R) (i : nat) (l : list nat) :
  StronglySorted (fun a b => key a <= key b) l ->
  StronglySorted (fun a b => key a <= key b) (insert_idx key i l).
Proof.
  induction 1 as [|j l Hs IH Hf]; simpl.
  - constructor; [constructor | constructor].
  - destruct (Rleb (key i) (key j)) eqn:E.
    + apply Rleb_true in E. constructor.
      * now constructor.
      * constructor; [exact E|].
        eapply Forall_impl; [|exact Hf]. simpl. intros a Ha. lra.
    + apply Rleb_false in E. constructor; [exact IH|].
      apply (Permutation_Forall (x := i :: l)).
      * symmetry. apply insert_idx_perm.
      * constructor; [lra | exact Hf].
Qed.

Lemma argsort_perm (a : list R) : Permutation (argsort a) (seq 0 (length a)).
Proof.
  unfold argsort. induction (seq 0 (length a)) as [|i l IH]; simpl; [reflexivity|].
  rewrite insert_idx_perm. now constructor.
Qed.

Lemma argsort_sorted (a : list R) :
  StronglySorted (fun i j => nth i a 0 <= nth j a 0) (argsort a).
Proof.
  unfold argsort. induction (seq 0 (length a)) as [|i l IH]; simpl.
  - constructor.
  - now apply (insert_idx_sorted (fun i => nth i a 0)).
Qed.

Lemma argsort_length (a : list R) : length (argsort a) = length a.
Proof. rewrite (Permutation_length (argsort_perm a)). apply length_seq. Qed.

Lemma argsort_bound (a : list R) (i : nat) :
  In i (argsort a) -> (i < length a)%nat.
Proof.
  intros H. apply (Permutation_in _ (argsort_perm a)) in H.
  apply in_seq in H. lia.
Qed.

Lemma map_nth_seq_id {A : Type} (d : A) (l : list A) :
  map (fun i => nth i l d) (seq 0 (length l)) = l.
Proof.
  induction l as [|a l IH]; [reflexivity|].
  cbn [length seq map nth]. rewrite <- seq_shift, map_map. now rewrite IH.
Qed.

Lemma take_sorted (a : list R) :
  StronglySorted Rle (take a (argsort a)).
Proof.
  unfold take. assert (H := argsort_sorted a).
  induction H as [|i l Hs IH Hf]; simpl; constructor.
  - exact IH.
  - apply Forall_map. exact Hf.
Qed.

Lemma sumR_nonneg (l : list R) :
  (forall w, In w l -> 0 <= w) -> 0 <= sumR l.
Proof.
  induction l as [|a l IH]; intros H; simpl; [lra|].
  assert (0 <= a) by (apply H; now left).
  assert (0 <= sumR l) by (apply IH; intros w Hw; apply H; now right).
  lra.
Qed.

Lemma prefix_sum_mono (l : list R) :
  (forall w, In w l -> 0 <= w) ->
  forall j k, (j <= k)%nat -> sumR (firstn j l) <= sumR (firstn k l).
Proof.
  induction l as [|a l IH]; intros H j k Hjk.
  - rewrite !firstn_nil. lra.
  - destruct k as [|k]; [replace j with 0%nat by lia; lra|].
    assert (Hl : forall w, In w l -> 0 <= w) by (intros w Hw; apply H; now right).
    destruct j as [|j]; simpl.
    + assert (0 <= a) by (apply H; now left).
      assert (sumR (firstn 0 l) <= sumR (firstn k l)) by (apply IH; [exact Hl|lia]).
      simpl in *. lra.
    + assert (sumR (firstn j l) <= sumR (firstn k l)) by (apply IH; [exact Hl|lia]).
      lra.
Qed.

Lemma cumsum_from_length (l : list R) :
  forall acc, length (cumsum_from acc l) = length l.
Proof. induction l as [|a l IH]; intros acc; simpl; [reflexivity | now rewrite IH]. Qed.

Lemma cumsum_length (l : list R) : length (cumsum l) = length l.
Proof. apply cumsum_from_length. Qed.

Lemma cumsum_nth (l : list R) (k : nat) :
  (k < length l)%nat -> nth k (cumsum l) 0 = sumR (firstn (S k) l).
Proof.
  intros Hk. unfold cumsum.
  change (nth k (cumsum_from 0 l) 0) with (nth (S k) (0 :: cumsum_from 0 l) 0).
  rewrite cumsum_from_nth by lia. ring.
Qed.

Lemma cumsum_last (l : list R) :
  l <> [] -> last (cumsum l) 0 = sumR l.
Proof.
  intros Hl.
  assert (Hc : cumsum l <> []).
  { intros E. apply (f_equal (@length R)) in E.
    rewrite cumsum_length in E. destruct l; [congruence | discriminate]. }
  destruct (exists_last Hc) as [pre [z E]].
  rewrite E, last_last.
  assert (Hlen : length (cumsum l) = S (length pre))
    by (rewrite E, length_app; simpl; lia).
  rewrite cumsum_length in Hlen.
  assert (Hz : nth (length pre) (cumsum l) 0 = z)
    by (rewrite E, app_nth2, Nat.sub_diag by lia; reflexivity).
  rewrite cumsum_nth in Hz by lia.
  rewrite <- Hlen, firstn_all in Hz. now symmetry.
Qed.

(** The binary search on a non-decreasing array. *)
Lemma bisect_left_spec (a : list R) (v : R) :
  (forall i j, (i <= j < length a)%nat -> nth i a 0 <= nth j a 0) ->
  forall fuel lo hi,
    (lo <= hi <= length a)%nat -> (hi - lo <= fuel)%nat ->
    (forall j, (j < lo)%nat -> nth j a 0 < v) ->
    (forall j, (hi <= j < length a)%nat -> v <= nth j a 0) ->
    (bisect_left fuel a v lo hi <= length a)%nat
    /\ (forall j, (j < bisect_left fuel a v lo hi)%nat -> nth j a 0 < v)
    /\ (forall j, (bisect_left fuel a v lo hi <= j < length a)%nat ->
          v <= nth j a 0).
Proof.
  intros Hmono.
  induction fuel as [|fuel IH]; intros lo hi Hb Hf Hlo Hhi; cbn [bisect_left].
  - assert (lo = hi) by lia. subst hi.
    split; [lia|]. split; assumption.
  - destruct (lo <? hi)%nat eqn:E.
    + apply Nat.ltb_lt in E.
      assert (Hmid : (lo <= lo + (hi - lo) / 2 < hi)%nat).
      { split; [lia|].
        assert ((hi - lo) / 2 < hi - lo)%nat by (apply Nat.div_lt; lia). lia. }
      set (mid := (lo + (hi - lo) / 2)%nat) in *.
      destruct (Rltb (nth mid a 0) v) eqn:Ev.
      * apply Rltb_true in Ev. apply IH; [lia | lia | | exact Hhi].
        intros j Hj. assert (nth j a 0 <= nth mid a 0) by (apply Hmono; lia). lra.
      * apply Rltb_false in Ev. apply IH; [lia | lia | exact Hlo |].
        intros j Hj. assert (nth mid a 0 <= nth j a 0) by (apply Hmono; lia). lra.
    + apply Nat.ltb_ge in E. assert (lo = hi) by lia. subst hi.
      split; [lia|]. split; assumption.
Qed.

Lemma searchsorted_spec (a : list R) (v : R) :
  (forall i j, (i <= j < length a)%nat -> nth i a 0 <= nth j a 0) ->
  (searchsorted a v <= length a)%nat
  /\ (forall j, (j < searchsorted a v)%nat -> nth j a 0 < v)
  /\ (forall j, (searchsorted a v <= j < length a)%nat -> v <= nth j a 0).
Proof.
  intros Hmono. unfold searchsorted.
  apply bisect_left_spec; [exact Hmono | lia | lia | intros j Hj; lia | intros j Hj; lia].
Qed.

Lemma StronglySorted_map {A : Type} (f : A -> R) (l : list A) :
  StronglySorted Rle (map f l) ->
  StronglySorted (fun p q => f p <= f q) l.
Proof.
  induction l as [|a l IH]; intros H; [constructor|].
  simpl in H. inversion H as [|? ? Hs Hf]; subst.
  constructor; [now apply IH|].
  apply Forall_forall. intros b Hb.
  rewrite Forall_forall in Hf. apply Hf. now apply in_map.
Qed.

Lemma valid_mask_same_length (pitches cl : list (option R)) (min_clarity : R) :
  length pitches = length cl ->
  valid_mask pitches (Some cl) min_clarity
  = Ok (map2 andb (map (fun p => negb (isnan p)) pitches)
                  (map (fun c => ge_min min_clarity c && negb (isnan c)) cl)).
Proof.
  intros H. unfold valid_mask, inplace_and.
  rewrite !length_map, H, Nat.eqb_refl. reflexivity.
Qed.

Lemma valid_arrays (min_clarity : R) (pitches : list (option R)) :
  forall cl,
    length pitches = length cl ->
    let mask := map2 andb (map (fun p => negb (isnan p)) pitches)
                     (map (fun c => ge_min min_clarity c && negb (isnan c)) cl) in
    length mask = length pitches
    /\ floats (mask_select pitches mask) = map fst (valid_pairs min_clarity pitches cl)
    /\ floats (mask_select cl mask) = map snd (valid_pairs min_clarity pitches cl).
Proof.
  induction pitches as [|p ps IH]; intros [|c cs] H; try discriminate.
  - simpl. auto.
  - simpl in H. injection H as H. specialize (IH cs H).
    cbv zeta in IH. destruct IH as [IH0 [IH1 IH2]].
    cbv zeta. cbn [map map2 mask_select valid_pairs length].
    destruct p as [f|], c as [v|]; cbn [isnan ge_min negb andb];
      try (rewrite ?andb_false_r; cbn [floats];
           split; [now rewrite IH0 | split; assumption]).
    rewrite andb_true_r.
    destruct (Rleb min_clarity v); cbn [floats map fst snd andb].
    + split; [now rewrite IH0 | split; now f_equal].
    + split; [now rewrite IH0 | split; assumption].
Qed.

Lemma valid_pairs_In (min_clarity : R) (pitches : list (option R)) :
  forall cl f w,
    In (f, w) (valid_pairs min_clarity pitches cl) ->
    In (Some f) pitches /\ In (Some w) cl /\ min_clarity <= w.
Proof.
  induction pitches as [|p ps IH]; intros [|c cs] f w H; simpl in H; try easy.
  assert (Hrec : In (f, w) (valid_pairs min_clarity ps cs) ->
                 In (Some f) (p :: ps) /\ In (Some w) (c :: cs) /\ min_clarity <= w).
  { intros H'. destruct (IH cs f w H') as [H1 [H2 H3]].
    split; [now right | split; [now right | exact H3]]. }
  destruct p as [g|], c as [v|]; try (now apply Hrec).
  destruct (Rleb min_clarity v) eqn:E; [|now apply Hrec].
  destruct H as [H|H]; [|now apply Hrec].
  injection H as -> ->. apply Rleb_true in E.
  split; [now left | split; [now left | exact E]].
Qed.

Lemma floats_present_mask (pitches : list (option R)) :
  floats (mask_select pitches (map (fun p => negb (isnan p)) pitches))
  = floats pitches.
Proof.
  induction pitches as [|[f|] ps IH]; simpl; [reflexivity | now f_equal | exact IH].
Qed.

Lemma length_zero_iff {A : Type} (l : list A) :
  (length l =? 0)%nat = true <-> l = [].
Proof.
  destruct l; simpl; split; intros H; try reflexivity; discriminate.
Qed.

(** ** The weighted median does not depend on how ties are ordered *)

Lemma sumR_perm (l l' : list R) : Permutation l l' -> sumR l = sumR l'.
Proof. induction 1; simpl; lra. Qed.

Lemma weight_upto_perm (f : R) (l l' : list (R * R)) :
  Permutation l l' -> weight_upto f l = weight_upto f l'.
Proof.
  intros H. unfold weight_upto. apply sumR_perm.
  apply Permutation_map. induction H; simpl.
  - constructor.
  - destruct (Rleb (fst x) f); [now constructor | assumption].
  - destruct (Rleb (fst x) f), (Rleb (fst y) f);
      try reflexivity; apply perm_swap.
  - etransitivity; eassumption.
Qed.

Lemma weight_upto_app (f : R) (l l' : list (R * R)) :
  weight_upto f (l ++ l') = weight_upto f l + weight_upto f l'.
Proof. unfold weight_upto. now rewrite filter_app, map_app, sumR_app. Qed.

Lemma weight_upto_all (f : R) (l : list (R * R)) :
  (forall p, In p l -> fst p <= f) -> weight_upto f l = sumR (map snd l).
Proof.
  intros H. unfold weight_upto. induction l as [|p l IH]; [reflexivity|].
  simpl. rewrite (proj2 (Rleb_true _ _) (H p (or_introl eq_refl))).
  simpl. rewrite IH; [reflexivity|]. intros q Hq. apply H. now right.
Qed.

Lemma weight_upto_none (f : R) (l : list (R * R)) :
  (forall p, In p l -> f < fst p) -> weight_upto f l = 0.
Proof.
  intros H. unfold weight_upto. induction l as [|p l IH]; [reflexivity|].
  simpl. rewrite (proj2 (Rleb_false _ _) (H p (or_introl eq_refl))).
  apply IH. intros q Hq. apply H. now right.
Qed.

Lemma weight_upto_bounds (f : R) (l : list (R * R)) :
  (forall p, In p l -> 0 <= snd p) ->
  0 <= weight_upto f l <= sumR (map snd l).
Proof.
  intros H. unfold weight_upto. induction l as [|p l IH]; simpl; [lra|].
  assert (0 <= snd p) by (apply H; now left).
  assert (IH' : 0 <= sumR (map snd (filter (fun q => Rleb (fst q) f) l))
                <= sumR (map snd l))
    by (apply IH; intros q Hq; apply H; now right).
  destruct (Rleb (fst p) f); simpl; lra.
Qed.

Lemma sorted_nth_le (l : list (R * R)) :
  StronglySorted (fun p q => fst p <= fst q) l ->
  forall i j, (i <= j < length l)%nat ->
    fst (nth i l (0, 0)) <= fst (nth j l (0, 0)).
Proof.
  induction 1 as [|a l Hs IH Hf]; intros i j Hij; simpl in Hij; [lia|].
  destruct j as [|j].
  - replace i with 0%nat by lia. simpl. lra.
  - destruct i as [|i]; simpl.
    + rewrite Forall_forall in Hf. apply Hf. apply nth_In. lia.
    + apply IH. lia.
Qed.

Lemma In_firstn_nth {A : Type} (d : A) (l : list A) (k : nat) (a : A) :
  In a (firstn k l) -> exists i, (i < k)%nat /\ (i < length l)%nat /\ nth i l d = a.
Proof.
  revert k. induction l as [|b l IH]; intros k H.
  - rewrite firstn_nil in H. destruct H.
  - destruct k as [|k]; [destruct H|]. simpl in H. destruct H as [H|H].
    + exists 0%nat. simpl. repeat split; [lia | lia | exact H].
    + destruct (IH k H) as [i [Hi [Hl Hn]]].
      exists (S i). simpl. repeat split; [lia | lia | exact Hn].
Qed.

Lemma In_skipn_nth {A : Type} (d : A) (l : list A) (k : nat) (a : A) :
  In a (skipn k l) -> exists i, (k <= i < length l)%nat /\ nth i l d = a.
Proof.
  revert k. induction l as [|b l IH]; intros k H.
  - rewrite skipn_nil in H. destruct H.
  - destruct k as [|k].
    + cbn [skipn] in H. apply (In_nth _ _ d) in H. destruct H as [i [Hi Hn]].
      exists i. split; [lia | exact Hn].
    + simpl in H. destruct (IH k H) as [i [Hi Hn]].
      exists (S i). simpl. split; [lia | exact Hn].
Qed.

(** In a sorted list the weight up to the frequency at position [k]
    covers the cumulative weight at [k] ... *)
Lemma weight_upto_ge_cumulative (l : list (R * R)) (k : nat) :
  StronglySorted (fun p q => fst p <= fst q) l ->
  (forall p, In p l -> 0 <= snd p) ->
  (k < length l)%nat ->
  cumulative_weight l k <= weight_upto (fst (nth k l (0, 0))) l.
Proof.
  intros Hs Hpos Hk.
  rewrite <- (firstn_skipn (S k) l) at 3. rewrite weight_upto_app.
  rewrite weight_upto_all.
  - fold (cumulative_weight l k).
    assert (H := weight_upto_bounds (fst (nth k l (0, 0))) (skipn (S k) l)).
    destruct H as [H _]; [|lra].
    intros p Hp. apply Hpos.
    rewrite <- (firstn_skipn (S k) l). apply in_or_app. now right.
  - intros p Hp. destruct (In_firstn_nth (0, 0) _ _ _ Hp) as [i [Hi [Hl <-]]].
    apply sorted_nth_le; [exact Hs | lia].
Qed.

(** ... and the weight up to a smaller frequency stays within the
    positions before [k]. *)
Lemma weight_upto_le_prefix (l : list (R * R)) (k : nat) (g : R) :
  StronglySorted (fun p q => fst p <= fst q) l ->
  (forall p, In p l -> 0 <= snd p) ->
  (k < length l)%nat ->
  g < fst (nth k l (0, 0)) ->
  weight_upto g l <= sumR (map snd (firstn k l)).
Proof.
  intros Hs Hpos Hk Hg.
  rewrite <- (firstn_skipn k l) at 1. rewrite weight_upto_app.
  rewrite (weight_upto_none g (skipn k l)).
  - assert (H := weight_upto_bounds g (firstn k l)).
    destruct H as [_ H]; [|lra].
    intros p Hp. apply Hpos.
    rewrite <- (firstn_skipn k l). apply in_or_app. now left.
  - intros p Hp. destruct (In_skipn_nth (0, 0) _ _ _ Hp) as [i [Hi <-]].
    assert (fst (nth k l (0, 0)) <= fst (nth i l (0, 0)))
      by (apply sorted_nth_le; [exact Hs | lia]).
    lra.
Qed.

(** The binary search over the cumulative weights of a sorted list of
    pairs finds the first position that reaches half of the total. *)
Lemma searchsorted_half (sorted : list (R * R)) :
  sorted <> [] ->
  (forall p, In p sorted -> 0 <= snd p) ->
  reaches_half sorted
    (searchsorted (cumsum (map snd sorted))
                  (last (cumsum (map snd sorted)) 0 / 2)).
Proof.
  intros Hne Hpos.
  assert (Hlen0 : (0 < length sorted)%nat)
    by (destruct sorted; [congruence | simpl; lia]).
  assert (Hw : forall w, In w (map snd sorted) -> 0 <= w).
  { intros w Hin. apply in_map_iff in Hin. destruct Hin as [p [<- Hp]].
    now apply Hpos. }
  set (cs := cumsum (map snd sorted)).
  assert (Hcl : length cs = length sorted)
    by (unfold cs; now rewrite cumsum_length, length_map).
  assert (Hcn : forall k, (k < length sorted)%nat ->
                nth k cs 0 = cumulative_weight sorted k).
  { intros k Hk. unfold cs, cumulative_weight.
    rewrite cumsum_nth by (now rewrite length_map).
    now rewrite firstn_map. }
  assert (Hlast : last cs 0 = total_weight sorted).
  { unfold cs, total_weight. apply cumsum_last.
    intros E. apply (f_equal (@length R)) in E. rewrite length_map in E.
    simpl in E. lia. }
  assert (Hmono : forall i j, (i <= j < length cs)%nat -> nth i cs 0 <= nth j cs 0).
  { intros i j Hij. rewrite Hcl in Hij. rewrite !Hcn by lia.
    unfold cumulative_weight. rewrite <- !firstn_map.
    apply prefix_sum_mono; [exact Hw | lia]. }
  destruct (searchsorted_spec cs (last cs 0 / 2) Hmono) as [Hr [Hbelow Habove]].
  set (r := searchsorted cs (last cs 0 / 2)) in *.
  assert (Htot : 0 <= total_weight sorted) by (now apply sumR_nonneg).
  assert (Hfull : cumulative_weight sorted (length sorted - 1) = total_weight sorted).
  { unfold cumulative_weight, total_weight.
    replace (S (length sorted - 1)) with (length sorted) by lia.
    now rewrite firstn_all. }
  assert (Hrlt : (r < length sorted)%nat).
  { destruct (Nat.lt_ge_cases r (length sorted)) as [H|H]; [exact H|].
    assert (Hb := Hbelow (length sorted - 1)%nat ltac:(lia)).
    rewrite Hcn, Hfull, Hlast in Hb by lia. lra. }
  unfold reaches_half.
  split; [exact Hrlt|]. split.
  - rewrite <- Hlast, <- Hcn by lia. apply Habove. lia.
  - intros j Hj. rewrite <- Hlast, <- Hcn by lia. now apply Hbelow.
Qed.

Lemma reaches_half_not_lt (l l' : list (R * R)) (k k' : nat) :
  Permutation l l' ->
  StronglySorted (fun p q => fst p <= fst q) l ->
  StronglySorted (fun p q => fst p <= fst q) l' ->
  (forall p, In p l -> 0 <= snd p) ->
  reaches_half l k -> reaches_half l' k' ->
  ~ fst (nth k l (0, 0)) < fst (nth k' l' (0, 0)).
Proof.
  intros Hperm Hs Hs' Hpos [Hk [Hge _]] [Hk' [_ Hlt']] Hlt.
  assert (Hpos' : forall p, In p l' -> 0 <= snd p).
  { intros p Hp. apply Hpos. apply (Permutation_in _ (Permutation_sym Hperm) Hp). }
  assert (HT : total_weight l = total_weight l').
  { unfold total_weight. apply sumR_perm. now apply Permutation_map. }
  set (f := fst (nth k l (0, 0))) in *.
  assert (H1 : total_weight l / 2 <= weight_upto f l).
  { assert (H := weight_upto_ge_cumulative l k Hs Hpos Hk). fold f in H. lra. }
  rewrite (weight_upto_perm f l l' Hperm) in H1.
  assert (H2 := weight_upto_le_prefix l' k' f Hs' Hpos' Hk' Hlt).
  destruct k' as [|j].
  - (* the frequency [f] occurs in [l'], at or after position 0 *)
    assert (Hin : In (nth k l (0, 0)) l').
    { apply (Permutation_in _ Hperm). now apply nth_In. }
    apply (In_nth _ _ (0, 0)) in Hin. destruct Hin as [i [Hi Hn]].
    assert (Hle := sorted_nth_le l' Hs' 0 i ltac:(lia)).
    rewrite Hn in Hle. fold f in Hle. lra.
  - assert (H3 := Hlt' j ltac:(lia)). unfold cumulative_weight in H3. lra.
Qed.

Lemma reaches_half_unique (l l' : list (R * R)) (k k' : nat) :
  Permutation l l' ->
  StronglySorted (fun p q => fst p <= fst q) l ->
  StronglySorted (fun p q => fst p <= fst q) l' ->
  (forall p, In p l -> 0 <= snd p) ->
  reaches_half l k -> reaches_half l' k' ->
  fst (nth k l (0, 0)) = fst (nth k' l' (0, 0)).
Proof.
  intros Hperm Hs Hs' Hpos Hk Hk'.
  assert (H1 := reaches_half_not_lt l l' k k' Hperm Hs Hs' Hpos Hk Hk').
  assert (Hpos' : forall p, In p l' -> 0 <= snd p).
  { intros p Hp. apply Hpos. apply (Permutation_in _ (Permutation_sym Hperm) Hp). }
  assert (H2 := reaches_half_not_lt l' l k' k (Permutation_sym Hperm)
                  Hs' Hs Hpos' Hk' Hk).
  lra.
Qed.

(** The weighted median of the code on the pairs of a valid subset. *)
Lemma weighted_median_spec (valid : list (R * R)) :
  valid <> [] ->
  (forall p, In p valid -> 0 <= snd p) ->
  exists sorted k,
    Permutation sorted valid
    /\ StronglySorted (fun p q => fst p <= fst q) sorted
    /\ reaches_half sorted k
    /\ weighted_median (map fst valid) (map snd valid)
       = Ok (Some (fst (nth k sorted (0, 0)))).
Proof.
  intros Hne Hpos.
  set (vp := map fst valid). set (vc := map snd valid).
  set (idx := argsort vp).
  set (sorted := map (fun i => nth i valid (0, 0)) idx).
  assert (Hfst : map fst sorted = take vp idx).
  { unfold sorted, take, vp. rewrite map_map. apply map_ext. intros i.
    now rewrite <- (map_nth fst). }
  assert (Hsnd : map snd sorted = take vc idx).
  { unfold sorted, take, vc. rewrite map_map. apply map_ext. intros i.
    now rewrite <- (map_nth snd). }
  assert (Hperm : Permutation sorted valid).
  { assert (E : Permutation sorted
                  (map (fun i => nth i valid (0, 0)) (seq 0 (length valid)))).
    { apply Permutation_map. unfold idx.
      replace (length valid) with (length vp) by (unfold vp; apply length_map).
      apply argsort_perm. }
    now rewrite map_nth_seq_id in E. }
  assert (Hne' : sorted <> []).
  { intros E. rewrite E in Hperm. apply Permutation_nil in Hperm. congruence. }
  assert (Hpos' : forall p, In p sorted -> 0 <= snd p).
  { intros p Hp. apply Hpos. now apply (Permutation_in _ Hperm). }
  assert (Hhalf := searchsorted_half sorted Hne' Hpos').
  set (r := searchsorted (cumsum (map snd sorted))
                         (last (cumsum (map snd sorted)) 0 / 2)) in *.
  exists sorted, r.
  split; [exact Hperm|].
  split; [apply StronglySorted_map; rewrite Hfst; apply take_sorted|].
  split; [exact Hhalf|].
  unfold weighted_median. fold vp vc idx. rewrite <- Hsnd, <- Hfst. fold r.
  destruct Hhalf as [Hr _].
  rewrite (nth_error_nth' (map fst sorted) 0) by (now rewrite length_map).
  now rewrite <- (map_nth fst).
Qed.

(** C8. For a pitch time series (two aligned arrays) whose clarities
    that pass the minimum are non-negative, the aggregator returns
    "undetermined" exactly when the valid subset is empty, with or
    without clarities; with clarities and a non-empty valid subset it
    returns a frequency that is one of the input frequencies and that,
    however the valid pairs are sorted by ascending frequency, stands at
    the first position whose cumulative clarity reaches half of the
    total. *)
Theorem get_dominant_pitch_mpm_spec
    (pitches clarities : list (option R)) (min_clarity : R) :
  length pitches = length clarities ->
  (forall c, In (Some c) clarities -> min_clarity <= c -> 0 <= c) ->
  let valid := valid_pairs min_clarity pitches clarities in
  (get_dominant_pitch_mpm pitches (Some clarities) min_clarity = Ok None
   <-> valid = [])
  /\ (get_dominant_pitch_mpm pitches None min_clarity = Ok None
      <-> floats pitches = [])
  /\ (valid <> [] ->
      exists f,
        get_dominant_pitch_mpm pitches (Some clarities) min_clarity
        = Ok (Some f)
        /\ In (Some f) pitches
        /\ forall sorted,
             Permutation sorted valid ->
             StronglySorted (fun p q => fst p <= fst q) sorted ->
             exists k,
               (k < length sorted)%nat
               /\ total_weight sorted / 2 <= cumulative_weight sorted k
               /\ (forall j, (j < k)%nat ->
                     cumulative_weight sorted j < total_weight sorted / 2)
               /\ f = fst (nth k sorted (0, 0))).
Proof.
  intros Hlen Hpos valid.
  assert (Hrun : get_dominant_pitch_mpm pitches (Some clarities) min_clarity
                 = if (length (map fst valid) =? 0)%nat then Ok None
                   else weighted_median (map fst valid) (map snd valid)).
  { unfold get_dominant_pitch_mpm.
    rewrite (valid_mask_same_length _ _ _ Hlen). cbn [bind].
    destruct (valid_arrays min_clarity pitches clarities Hlen) as [Hm [Hp Hc]].
    rewrite Hp. fold valid.
    destruct (length (map fst valid) =? 0)%nat; [reflexivity|].
    unfold bool_index. rewrite Hm, <- Hlen, Nat.eqb_refl. cbn [bind].
    rewrite Hc. reflexivity. }
  assert (Hvalid : forall p, In p valid -> 0 <= snd p).
  { intros [f w] Hin. apply valid_pairs_In in Hin.
    destruct Hin as [_ [Hw Hmin]]. simpl. now apply Hpos. }
  assert (Hsome : valid <> [] ->
          exists f,
            get_dominant_pitch_mpm pitches (Some clarities) min_clarity
            = Ok (Some f)
            /\ In (Some f) pitches
            /\ forall sorted,
                 Permutation sorted valid ->
                 StronglySorted (fun p q => fst p <= fst q) sorted ->
                 exists k,
                   (k < length sorted)%nat
                   /\ total_weight sorted / 2 <= cumulative_weight sorted k
                   /\ (forall j, (j < k)%nat ->
                         cumulative_weight sorted j < total_weight sorted / 2)
                   /\ f = fst (nth k sorted (0, 0))).
  { intros Hne.
    destruct (weighted_median_spec valid Hne Hvalid)
      as [sorted0 [k0 [Hperm0 [Hs0 [Hk0 Hres]]]]].
    exists (fst (nth k0 sorted0 (0, 0))).
    split; [|split].
    - rewrite Hrun.
      replace (length (map fst valid) =? 0)%nat with false; [exact Hres|].
      symmetry. apply Nat.eqb_neq. rewrite length_map.
      destruct valid; [congruence | discriminate].
    - assert (Hin : In (nth k0 sorted0 (0, 0)) valid).
      { apply (Permutation_in _ Hperm0). apply nth_In. apply Hk0. }
      destruct (nth k0 sorted0 (0, 0)) as [f w]. simpl.
      now apply (valid_pairs_In min_clarity pitches clarities f w).
    - intros sorted Hperm Hs.
      assert (Hne' : sorted <> []).
      { intros E. rewrite E in Hperm. apply Permutation_nil in Hperm.
        congruence. }
      assert (Hpos' : forall p, In p sorted -> 0 <= snd p).
      { intros p Hp. apply Hvalid. now apply (Permutation_in _ Hperm). }
      assert (Hhalf := searchsorted_half sorted Hne' Hpos').
      set (k := searchsorted (cumsum (map snd sorted))
                             (last (cumsum (map snd sorted)) 0 / 2)) in *.
      exists k. destruct Hhalf as [H1 [H2 H3]].
      repeat (split; [assumption|]).
      apply (reaches_half_unique sorted0 sorted k0 k); try assumption.
      + now rewrite Hperm0, Hperm.
      + intros p Hp. apply Hvalid. now apply (Permutation_in _ Hperm0).
      + now repeat split. }
  split; [|split; [|exact Hsome]].
  - split.
    + intros Hnone.
      destruct valid as [|p v] eqn:E; [reflexivity|].
      destruct Hsome as [f [Hres _]]; [discriminate|].
      rewrite Hres in Hnone. discriminate.
    + intros E. rewrite Hrun, E. reflexivity.
  - unfold get_dominant_pitch_mpm, valid_mask. cbn [bind].
    rewrite floats_present_mask.
    destruct (floats pitches) as [|f fs] eqn:E; simpl; split; intros H;
      try reflexivity; discriminate.
Qed.

Lemma get_dominant_pitch_mpm_spec_witness :
  get_dominant_pitch_mpm [Some 440; None; Some 220; Some 445]
    (Some [Some 0.9; None; Some 0.3; Some 0.95]) 0.5 = Ok None
  <-> valid_pairs 0.5 [Some 440; None; Some 220; Some 445]
        [Some 0.9; None; Some 0.3; Some 0.95] = [].
Proof.
  apply (get_dominant_pitch_mpm_spec
           [Some 440; None; Some 220; Some 445]
           [Some 0.9; None; Some 0.3; Some 0.95] 0.5).
  - reflexivity.
  - intros c _ Hc. lra.
Defined.

(** The series above: two valid entries, 440 Hz (0.9) and 445 Hz (0.95);
    half of the total 1.85 is first reached at the second one. *)
Lemma get_dominant_pitch_mpm_example :
  get_dominant_pitch_mpm [Some 440; None; Some 220; Some 445]
    (Some [Some 0.9; None; Some 0.3; Some 0.95]) 0.5 = Ok (Some 445).
Proof.
  unfold get_dominant_pitch_mpm, valid_mask, inplace_and. simpl.
  rdecide. simpl.
  unfold bool_index, weighted_median, argsort, searchsorted, cumsum. simpl.
  rdecide. simpl. rdecide. reflexivity.
Qed.

(** Outside the data model: negative clarities that pass a negative
    minimum make the cumulative weights decreasing, and the search runs
    past the end of the array. *)
Remark get_dominant_pitch_mpm_negative_weights :
  get_dominant_pitch_mpm [Some 100; Some 200] (Some [Some (-1); Some (-1)]) (-2)
  = Raise IndexError.
Proof.
  unfold get_dominant_pitch_mpm, valid_mask, inplace_and. simpl.
  rdecide. simpl.
  unfold bool_index, weighted_median, argsort, searchsorted, cumsum. simpl.
  rdecide. simpl. rdecide. reflexivity.
Qed.

(** * Further properties of the code *)

(** ** More on the NSDF engine *)







Lemma sum_sq_nonneg (x : list R) (a len : nat) :
  0 <= sumR (map (fun j => nth j x 0 ^ 2) (seq a len)).
Proof.
  apply sumR_nonneg. intros w Hw. apply in_map_iff in Hw.
  destruct Hw as [j [<- _]]. apply pow2_ge_0.
Qed.

Lemma sum_sq_pos (x : list R) :
  (exists v, In v x /\ v <> 0) ->
  0 < sumR (map (fun j => nth j x 0 ^ 2) (seq 0 (length x))).
Proof.
  intros [v [Hin Hv]].
  apply (In_nth _ _ 0) in Hin. destruct Hin as [i [Hi Hn]].
  replace (length x) with (i + (1 + (length x - i - 1)))%nat by lia.
  rewrite !seq_app, !map_app, !sumR_app. simpl seq at 2. simpl map at 2.
  simpl sumR at 2. rewrite Nat.add_0_l, Hn.
  assert (H1 := sum_sq_nonneg x 0 i).
  assert (H2 := sum_sq_nonneg x (i + 1) (length x - i - 1)).
  assert (0 < v ^ 2).
  { simpl. destruct (Rtotal_order v 0) as [Hlt|[Heq|Hgt]]; [nra | contradiction | nra]. }
  lra.
Qed.





(** X23. The autocorrelation of the code (zero-pad to the least power
    of two that is at least 2n, transform, multiply by the conjugate,
    transform back, keep the first n values) equals the direct sum
    r(tau) = sum_{j=0}^{n-1-tau} x[j] x[j+tau] at every lag tau of
    [0, n-1], exactly over the reals. *)
Theorem autocorr_fft_exact (x : list R) :
  x <> [] ->
  exists e,
    fft_size (length x) = Ok (2 ^ e)%nat
    /\ (2 * length x <= 2 ^ e)%nat
    /\ (forall e', (e' < e)%nat -> (2 ^ e' < 2 * length x)%nat)
    /\ length (autocorr_fft x (2 ^ e)) = length x
    /\ (forall tau, (tau < length x)%nat ->
          nth tau (autocorr_fft x (2 ^ e)) 0 = autocorr_direct x tau).
Proof.
  intros Hx.
  assert (Hn : (1 <= length x)%nat) by (destruct x; [congruence | simpl; lia]).
  exists (ceil_log2 (2 * length x)).
  destruct (ceil_log2_spec (2 * length x)) as [Hub Hlo].
  assert (HN := fft_size_nonempty _ Hn).
  destruct (fft_size_even _ _ HN) as [h [Hh [Hh1 Hle]]].
  split; [exact HN|]. split; [exact Hub|]. split; [exact Hlo|].
  rewrite Hh.
  split; [apply autocorr_fft_length; lia|].
  intros tau Ht; apply autocorr_fft_nth; lia.
Qed.

Lemma autocorr_fft_exact_witness :
  exists e,
    fft_size 4 = Ok (2 ^ e)%nat
    /\ nth 2 (autocorr_fft [1; -1; 1; -1] (2 ^ e)) 0
       = autocorr_direct [1; -1; 1; -1] 2.
Proof.
  destruct (autocorr_fft_exact [1; -1; 1; -1]) as [e [H1 [_ [_ [_ H2]]]]].
  - discriminate.
  - exists e. split; [exact H1|]. apply H2. simpl. lia.
Defined.

(** X2. The NSDF of a frame with at least one non-zero sample is
    exactly 1 at lag 0. *)
Theorem nsdf_lag_zero (x : list R) :
  (exists v, In v x /\ v <> 0) ->
  exists nsdf,
    normalized_square_difference x = Ok nsdf /\ nth 0 nsdf 0 = 1.
Proof.
  intros Hv.
  assert (Hx : x <> []) by (destruct Hv as [v [Hin _]]; destruct x; [destruct Hin | discriminate]).
  exists (nsdf_direct x).
  split; [now apply normalized_square_difference_direct|].
  assert (Hn : (0 < length x)%nat) by (destruct x; [congruence | simpl; lia]).
  rewrite nsdf_direct_nth by exact Hn.
  assert (Hs := sum_sq_pos x Hv).
  assert (He : energy x 0
               = 2 * sumR (map (fun j => nth j x 0 ^ 2) (seq 0 (length x)))).
  { unfold energy. rewrite Nat.sub_0_r. ring. }
  assert (Hr : autocorr_direct x 0
               = sumR (map (fun j => nth j x 0 ^ 2) (seq 0 (length x)))).
  { unfold autocorr_direct. rewrite Nat.sub_0_r. apply sumR_map_ext.
    intros j _. rewrite Nat.add_0_r. simpl. ring. }
  unfold guarded_energy. rewrite (proj2 (Reqb_false _ _)) by lra.
  rewrite He, Hr. field. lra.
Qed.

Lemma nsdf_lag_zero_witness :
  exists nsdf,
    normalized_square_difference [0; 3; 0] = Ok nsdf /\ nth 0 nsdf 0 = 1.
Proof.
  apply (nsdf_lag_zero [0; 3; 0]). exists 3. split; [simpl; auto | lra].
Defined.

Lemma nth_all_zero (x : list R) (j : nat) :
  (forall v, In v x -> v = 0) -> nth j x 0 = 0.
Proof.
  intros H. destruct (Nat.lt_ge_cases j (length x)) as [Hj|Hj].
  - apply H. now apply nth_In.
  - now apply nth_overflow.
Qed.

Lemma peak_picking_nonpositive (nsdf : list R) (thr : R) :
  (forall i, nth i nsdf 0 <= 0) -> peak_picking nsdf thr = [].
Proof.
  intros H.
  destruct (peak_picking nsdf thr) as [|[i v] t] eqn:E; [reflexivity|].
  assert (Hin : In (i, v) (peak_picking nsdf thr)) by (rewrite E; now left).
  apply peak_picking_In in Hin. destruct Hin as [_ [Hv [_ [Hpos _]]]].
  specialize (H i). lra.
Qed.

(** X3. A silent frame (every sample zero) has an all-zero NSDF and
    yields no estimate, whatever the sample rate and the threshold. *)
Theorem silent_frame_no_estimate (x : list R) (sample_rate threshold : R) :
  x <> [] -> (forall v, In v x -> v = 0) ->
  normalized_square_difference x = Ok (repeat 0 (length x))
  /\ mpm_pitch_detection x sample_rate threshold = Ok (None, None).
Proof.
  intros Hx Hz.
  assert (Hn := normalized_square_difference_direct x Hx).
  assert (Hzero : nsdf_direct x = repeat 0 (length x)).
  { apply (nth_ext _ _ 0 0).
    - now rewrite nsdf_direct_length, repeat_length.
    - intros tau Ht. rewrite nsdf_direct_length in Ht.
      rewrite nsdf_direct_nth, nth_repeat by exact Ht.
      replace (autocorr_direct x tau) with 0.
      + unfold Rdiv. ring.
      + symmetry. unfold autocorr_direct. apply sumR_map_zero.
        intros j _. rewrite (nth_all_zero x j Hz). ring. }
  split; [now rewrite Hn, Hzero|].
  rewrite (mpm_pitch_detection_unfold _ _ _ _ Hn), Hzero.
  rewrite peak_picking_nonpositive; [reflexivity|].
  intros i. rewrite nth_repeat. lra.
Qed.

Lemma silent_frame_no_estimate_witness :
  mpm_pitch_detection [0; 0; 0; 0; 0] 48000 0.1 = Ok (None, None).
Proof.
  apply (silent_frame_no_estimate [0; 0; 0; 0; 0] 48000 0.1).
  - discriminate.
  - intros v Hv. simpl in Hv. intuition.
Defined.

(** ** More on the peak selector *)

Lemma sparse_sorted_count (b : nat) (l : list nat) :
  forall a,
    StronglySorted lt l ->
    (forall i, In i l -> (a <= i <= b)%nat) ->
    (forall i, In i l -> ~ In (S i) l) ->
    l = [] \/ (2 * length l + a <= b + 2)%nat.
Proof.
  induction l as [|i t IH]; intros a Hs Hr Hg; [now left|].
  right. inversion Hs as [|? ? Hs' Hf]; subst.
  rewrite Forall_forall in Hf.
  assert (Hi := Hr i (or_introl eq_refl)).
  destruct (IH (i + 2)%nat Hs') as [->|Hc].
  - intros j Hj. assert (i < j)%nat by now apply Hf.
    assert (j <> S i).
    { intros ->. apply (Hg i); [now left | now right]. }
    assert (Hjb := Hr j (or_intror Hj)). lia.
  - intros j Hj Hsj. apply (Hg j); [now right | now right].
  - simpl. lia.
  - simpl. lia.
Qed.

(** X5. Two peaks are never at adjacent lags, so an NSDF of length n
    has at most (n-1)/2 peaks. *)
Theorem peaks_not_adjacent (nsdf : list R) (threshold : R) :
  (forall i v w,
      In (i, v) (peak_picking nsdf threshold) ->
      ~ In (S i, w) (peak_picking nsdf threshold))
  /\ (2 * length (peak_picking nsdf threshold) <= length nsdf - 1)%nat.
Proof.
  assert (Hadj : forall i v w,
             In (i, v) (peak_picking nsdf threshold) ->
             ~ In (S i, w) (peak_picking nsdf threshold)).
  { intros i v w H1 H2.
    apply peak_picking_In in H1. apply peak_picking_In in H2.
    destruct H1 as [_ [-> [_ [_ [_ H1]]]]].
    destruct H2 as [_ [-> [_ [_ [H2 _]]]]].
    replace (S i - 1)%nat with i in H2 by lia.
    replace (i + 1)%nat with (S i) in H1 by lia. lra. }
  split; [exact Hadj|].
  rewrite <- (length_map fst).
  assert (Hs : StronglySorted lt (map fst (peak_picking nsdf threshold))).
  { rewrite peak_picking_filter, map_map. simpl. rewrite map_id.
    apply filter_seq_sorted. }
  assert (Hr : forall i, In i (map fst (peak_picking nsdf threshold)) ->
                 (1 <= i <= length nsdf - 2)%nat).
  { intros i Hi. apply in_map_iff in Hi. destruct Hi as [[j v] [<- Hj]].
    apply peak_picking_In in Hj. destruct Hj as [Hj _]. exact Hj. }
  assert (Hg : forall i, In i (map fst (peak_picking nsdf threshold)) ->
                 ~ In (S i) (map fst (peak_picking nsdf threshold))).
  { intros i Hi Hsi.
    apply in_map_iff in Hi. destruct Hi as [[j v] [Ej Hj]].
    apply in_map_iff in Hsi. destruct Hsi as [[j' w] [Ej' Hj']].
    simpl in Ej, Ej'. subst j j'. now apply (Hadj i v w). }
  destruct (sparse_sorted_count (length nsdf - 2) _ 1 Hs Hr Hg) as [E|H].
  - rewrite E. simpl. lia.
  - destruct (map fst (peak_picking nsdf threshold)) as [|i t] eqn:E.
    + simpl. lia.
    + assert (Hi := Hr i (or_introl eq_refl)). lia.
Qed.

(** X6. Raising the threshold only removes peaks: every peak found
    with a threshold is found, with the same value, with any lower
    threshold. *)
Theorem peak_picking_threshold_monotone (nsdf : list R) (low high : R) :
  low <= high ->
  incl (peak_picking nsdf high) (peak_picking nsdf low).
Proof.
  intros Hle [i v] H. apply peak_picking_In in H. apply peak_picking_In.
  destruct H as [Hi [Hv [Ht Hrest]]].
  split; [exact Hi|]. split; [exact Hv|]. split; [lra | exact Hrest].
Qed.

Lemma peak_picking_threshold_monotone_witness :
  incl (peak_picking [1; 0.2; 0.9; 0.3; 0.95; 0.1] 0.92)
       (peak_picking [1; 0.2; 0.9; 0.3; 0.95; 0.1] 0.1).
Proof.
  apply (peak_picking_threshold_monotone [1; 0.2; 0.9; 0.3; 0.95; 0.1] 0.1 0.92).
  lra.
Defined.

(** ** More on the refiner and the detector *)

Lemma parabolic_interpolation_near (nsdf : list R) (i : Z) :
  (0 < i < Z.of_nat (length nsdf) - 1)%Z ->
  item nsdf (i - 1) < item nsdf i ->
  item nsdf (i + 1) < item nsdf i ->
  IZR i - 1 / 2 < parabolic_interpolation nsdf i < IZR i + 1 / 2.
Proof.
  intros Hi Ha Hg. unfold parabolic_interpolation.
  replace (i <=? 0)%Z with false by (symmetry; apply Z.leb_gt; lia).
  replace (i >=? Z.of_nat (length nsdf) - 1)%Z with false
    by (symmetry; rewrite Z.geb_leb; apply Z.leb_gt; lia).
  cbn [orb]. cbv zeta.
  set (alpha := item nsdf (i - 1)) in *.
  set (beta := item nsdf i) in *.
  set (gamma := item nsdf (i + 1)) in *.
  destruct (Rltb (Rabs (alpha - 2 * beta + gamma)) 1e-10); [lra|].
  assert (Hd : alpha - 2 * beta + gamma < 0) by lra.
  set (d := alpha - 2 * beta + gamma) in *.
  replace 0.5 with (1 / 2) by lra.
  set (o := 1 / 2 * (alpha - gamma) / d).
  assert (Ho : o * d = (alpha - gamma) / 2).
  { unfold o. field. lra. }
  assert (-1 / 2 < o < 1 / 2); [|lra].
  assert (Hdd : d = alpha - 2 * beta + gamma) by reflexivity.
  split.
  - destruct (Rlt_le_dec (-1 / 2) o) as [H|H]; [exact H|]. exfalso.
    assert (0 <= (- (o + 1 / 2)) * (- d)) by (apply Rmult_le_pos; lra).
    lra.
  - destruct (Rlt_le_dec o (1 / 2)) as [H|H]; [exact H|]. exfalso.
    assert (0 <= (o - 1 / 2) * (- d)) by (apply Rmult_le_pos; lra).
    lra.
Qed.

(** X7. At a strict local maximum that is not at a boundary, the
    refined lag stays within half a sample of the integer peak index. *)
Theorem refinement_within_half_sample (nsdf : list R) (i : Z) :
  (0 < i < Z.of_nat (length nsdf) - 1)%Z ->
  item nsdf (i - 1) < item nsdf i ->
  item nsdf (i + 1) < item nsdf i ->
  Rabs (parabolic_interpolation nsdf i - IZR i) < 1 / 2.
Proof.
  intros Hi Ha Hg.
  assert (H := parabolic_interpolation_near nsdf i Hi Ha Hg).
  apply Rabs_def1; lra.
Qed.

Lemma refinement_within_half_sample_witness :
  Rabs (parabolic_interpolation [0; 0.5; 1; 0.75; 0] 2 - 2) < 1 / 2.
Proof.
  apply (refinement_within_half_sample [0; 0.5; 1; 0.75; 0] 2).
  - simpl. lia.
  - unfold item. simpl. lra.
  - unfold item. simpl. lra.
Defined.

Lemma best_peak_lag (nsdf : list R) (thr : R) (first : nat * R)
    (rest : list (nat * R)) :
  peak_picking nsdf thr = first :: rest ->
  let best := select_best_peak first rest in
  let lag := parabolic_interpolation nsdf (Z.of_nat (fst best)) in
  (1 <= fst best <= length nsdf - 2)%nat
  /\ snd best = nth (fst best) nsdf 0
  /\ thr < snd best /\ 0 < snd best
  /\ INR (fst best) - 1 / 2 < lag < INR (fst best) + 1 / 2.
Proof.
  intros E best lag.
  assert (Hin : In best (peak_picking nsdf thr))
    by (rewrite E; apply select_best_peak_In).
  subst lag. destruct best as [i v]. cbn [fst snd].
  apply peak_picking_In in Hin.
  destruct Hin as [Hi [Hv [Ht [Hp [Ha Hg]]]]].
  repeat (split; [first [exact Hv | exact Ht | exact Hp | lia]|]).
  rewrite INR_IZR_INZ.
  apply parabolic_interpolation_near.
  - lia.
  - unfold item.
    replace (Z.to_nat (Z.of_nat i - 1)) with (i - 1)%nat by lia.
    rewrite Nat2Z.id. lra.
  - unfold item.
    replace (Z.to_nat (Z.of_nat i + 1)) with (i + 1)%nat by lia.
    rewrite Nat2Z.id. lra.
Qed.

Lemma mpm_pitch_detection_peak (x : list R) (sr thr : R) (first : nat * R)
    (rest : list (nat * R)) :
  x <> [] ->
  peak_picking (nsdf_direct x) thr = first :: rest ->
  let best := select_best_peak first rest in
  let lag := parabolic_interpolation (nsdf_direct x) (Z.of_nat (fst best)) in
  mpm_pitch_detection x sr thr = Ok (Some (sr / lag), Some (snd best)).
Proof.
  intros Hx E best lag.
  rewrite (mpm_pitch_detection_unfold x sr thr _
             (normalized_square_difference_direct x Hx)), E.
  cbv zeta. fold best. fold lag.
  destruct (best_peak_lag _ _ _ _ E) as [Hi [_ [_ [_ Hlag]]]].
  fold best in Hi, Hlag. fold lag in Hlag.
  assert (1 <= INR (fst best)).
  { replace 1 with (INR 1) by reflexivity. apply le_INR. lia. }
  now rewrite (proj2 (Rltb_true 0 lag)) by lra.
Qed.

(** X8. On a non-empty frame the detector returns an estimate exactly
    when the peak list is non-empty: the refined lag of a peak is always
    positive, so the test on it never discards an estimate. *)
Theorem estimate_iff_peak (x : list R) (sample_rate threshold : R) :
  x <> [] ->
  exists nsdf,
    normalized_square_difference x = Ok nsdf
    /\ (peak_picking nsdf threshold = [] <->
        mpm_pitch_detection x sample_rate threshold = Ok (None, None))
    /\ (peak_picking nsdf threshold <> [] ->
        exists frequency clarity,
          mpm_pitch_detection x sample_rate threshold
          = Ok (Some frequency, Some clarity)).
Proof.
  intros Hx. exists (nsdf_direct x).
  assert (Hn := normalized_square_difference_direct x Hx).
  split; [exact Hn|].
  destruct (peak_picking (nsdf_direct x) threshold) as [|first rest] eqn:E.
  - split; [|congruence]. split; [|reflexivity]. intros _.
    now rewrite (mpm_pitch_detection_unfold _ _ _ _ Hn), E.
  - assert (H := mpm_pitch_detection_peak x sample_rate threshold _ _ Hx E).
    cbv zeta in H. split.
    + split; [discriminate|]. rewrite H. discriminate.
    + intros _. do 2 eexists. exact H.
Qed.

Lemma estimate_iff_peak_witness :
  exists nsdf,
    normalized_square_difference [1; -1; 1; -1] = Ok nsdf
    /\ (peak_picking nsdf 0.1 = [] <->
        mpm_pitch_detection [1; -1; 1; -1] 48000 0.1 = Ok (None, None)).
Proof.
  destruct (estimate_iff_peak [1; -1; 1; -1] 48000 0.1) as [nsdf [H [H0 _]]].
  - discriminate.
  - exists nsdf. split; [exact H | exact H0].
Defined.

Lemma mpm_estimate_bounds (x : list R) (sample_rate threshold frequency clarity : R) :
  mpm_pitch_detection x sample_rate threshold = Ok (Some frequency, Some clarity) ->
  threshold < clarity /\ 0 < clarity
  /\ (3 <= length x)%nat
  /\ (0 < sample_rate ->
      sample_rate / (INR (length x) - 3 / 2) < frequency < 2 * sample_rate).
Proof.
  intros H.
  assert (Hx : x <> []) by (intros ->; discriminate).
  destruct (peak_picking (nsdf_direct x) threshold) as [|first rest] eqn:E.
  - rewrite (mpm_pitch_detection_unfold _ _ _ _
               (normalized_square_difference_direct x Hx)), E in H.
    discriminate.
  - rewrite (mpm_pitch_detection_peak x sample_rate threshold _ _ Hx E) in H.
    destruct (best_peak_lag _ _ _ _ E) as [Hi [Hv [Ht [Hp Hlag]]]].
    set (best := select_best_peak first rest) in *.
    set (lag := parabolic_interpolation (nsdf_direct x) (Z.of_nat (fst best))) in *.
    injection H as Hf Hc. rewrite nsdf_direct_length in Hi.
    assert (Hlo : 1 <= INR (fst best)).
    { replace 1 with (INR 1) by reflexivity. apply le_INR. lia. }
    assert (Hhi : INR (fst best) <= INR (length x) - 2).
    { replace 2 with (INR 2) by (simpl; lra).
      rewrite <- minus_INR by lia. apply le_INR. lia. }
    split; [lra|]. split; [lra|]. split; [lia|].
    intros Hsr. subst frequency. unfold Rdiv. split.
    + apply Rmult_lt_compat_l; [exact Hsr|].
      apply Rinv_lt_contravar; [|lra].
      apply Rmult_lt_0_compat; lra.
    + rewrite (Rmult_comm 2). apply Rmult_lt_compat_l; [exact Hsr|].
      replace 2 with (/ (1 / 2)) by field.
      apply Rinv_lt_contravar; [|lra].
      apply Rmult_lt_0_compat; lra.
Qed.

(** X9. An estimate has a positive clarity above the threshold; it
    comes from a frame of at least three samples, and for a positive
    sample rate its frequency lies strictly between
    sample_rate / (n - 3/2) and 2 * sample_rate. *)
Theorem estimate_bounds (x : list R) (sample_rate threshold frequency clarity : R) :
  mpm_pitch_detection x sample_rate threshold = Ok (Some frequency, Some clarity) ->
  threshold < clarity /\ 0 < clarity
  /\ (3 <= length x)%nat
  /\ (0 < sample_rate ->
      sample_rate / (INR (length x) - 3 / 2) < frequency < 2 * sample_rate).
Proof. apply mpm_estimate_bounds. Qed.

Lemma estimate_bounds_witness :
  0.1 < 1 /\ 0 < 1 /\ (3 <= 4)%nat
  /\ (0 < 48000 -> 48000 / (INR 4 - 3 / 2) < 24000 < 2 * 48000).
Proof.
  apply (estimate_bounds [1; -1; 1; -1] 48000 0.1 24000 1).
  apply mpm_pitch_detection_alternating.
Defined.

(** X22. The estimate is linear in the sample rate: the same samples
    declared at k times the rate give k times the frequency and
    the same clarity, and "no estimate" stays "no estimate". *)
Theorem sample_rate_linearity (x : list R) (sample_rate threshold k : R) :
  mpm_pitch_detection x (k * sample_rate) threshold
  = match mpm_pitch_detection x sample_rate threshold with
    | Ok (Some f, clarity) => Ok (Some (k * f), clarity)
    | other => other
    end.
Proof.
  destruct (normalized_square_difference x) as [nsdf|e] eqn:Hn.
  - rewrite !(mpm_pitch_detection_unfold x _ threshold nsdf Hn).
    destruct (peak_picking nsdf threshold) as [|first rest]; [reflexivity|].
    cbv zeta. destruct (Rltb 0 _); [|reflexivity].
    do 3 f_equal. unfold Rdiv. ring.
  - unfold mpm_pitch_detection. rewrite Hn. reflexivity.
Qed.

(** ** More on the frame tracker *)

Lemma mapM_inv {A B : Type} (f : A -> result B) (l : list A) :
  forall bs, mapM f l = Ok bs -> Forall2 (fun a b => f a = Ok b) l bs.
Proof.
  induction l as [|a l IH]; intros bs H; simpl in H.
  - injection H as <-. constructor.
  - destruct (f a) as [b|e] eqn:Ea; [|discriminate]. cbn [bind] in H.
    destruct (mapM f l) as [bs'|e] eqn:El; [|discriminate]. cbn [bind] in H.
    injection H as <-. constructor; [exact Ea | now apply IH].
Qed.

Lemma Forall2_map_with {A A' B : Type} (g : A -> A') (P : A' -> B -> Prop)
    (Q : A -> Prop) (ks : list A) :
  forall bs,
    Forall2 P (map g ks) bs ->
    (forall k, In k ks -> Q k) ->
    Forall2 (fun k b => Q k /\ P (g k) b) ks bs.
Proof.
  induction ks as [|k ks IH]; intros bs HF HQ; simpl in HF;
    inversion HF as [|? ? ? ? Hk Hrest]; subst; constructor.
  - split; [apply HQ; now left | exact Hk].
  - apply IH; [exact Hrest|]. intros j Hj. apply HQ. now right.
Qed.

Lemma num_frames_nonneg (len L H : Z) :
  (0 < H)%Z -> (L - H <= len)%Z -> (0 <= num_frames len L H)%Z.
Proof.
  intros HH Hl. unfold num_frames.
  assert (-1 <= (len - L) / H)%Z by (apply Z.div_le_lower_bound; lia).
  lia.
Qed.

Lemma num_frames_zero (len L H : Z) :
  (0 < H)%Z -> (L - H <= len < L)%Z -> num_frames len L H = 0%Z.
Proof.
  intros HH Hl. unfold num_frames.
  assert (-1 <= (len - L) / H)%Z by (apply Z.div_le_lower_bound; lia).
  assert ((len - L) / H < 0)%Z by (apply Z.div_lt_upper_bound; lia).
  lia.
Qed.

Lemma num_frames_negative (len L H : Z) :
  (0 < H)%Z -> (len < L - H)%Z -> (num_frames len L H < 0)%Z.
Proof.
  intros HH Hl. unfold num_frames.
  assert ((len - L) / H < -1)%Z by (apply Z.div_lt_upper_bound; lia).
  lia.
Qed.

(** X10. With a non-zero sample rate, positive frame and hop lengths
    and a signal at least [L - H] long, the tracker returns exactly
    1 + floor((len - L) / H) rows; row k is stamped k*H/sample_rate and
    is the filtered result of the detector on the full window of L
    samples that starts at k*H, independently of the other rows. *)
Theorem tracker_series (audio : list R) (sample_rate : R)
    (frame_length hop_length : Z) (threshold fmin fmax : R) :
  sample_rate <> 0 -> (0 < frame_length)%Z -> (0 < hop_length)%Z ->
  (frame_length - hop_length <= Z.of_nat (length audio))%Z ->
  exists rows,
    detect_pitch_mpm audio sample_rate frame_length hop_length
                     threshold fmin fmax = Ok rows
    /\ Z.of_nat (length rows)
       = (1 + (Z.of_nat (length audio) - frame_length) / hop_length)%Z
    /\ times_of rows
       = map (fun k => IZR (Z.of_nat k * hop_length) / sample_rate)
             (seq 0 (length rows))
    /\ Forall2 (fun k row =>
                  length (py_slice audio (Z.of_nat k * hop_length)
                                   (Z.of_nat k * hop_length + frame_length))
                  = Z.to_nat frame_length
                  /\ track_frame audio sample_rate frame_length hop_length
                                 threshold fmin fmax (Z.of_nat k) = Ok row)
               (seq 0 (length rows)) rows.
Proof.
  intros Hsr HL HH Hlen.
  assert (Hnf := num_frames_nonneg _ _ _ HH Hlen).
  destruct (detect_pitch_mpm_rows audio sample_rate frame_length hop_length
              threshold fmin fmax Hsr HL HH Hnf) as [rows [Hrows [Hcount Htimes]]].
  exists rows. split; [exact Hrows|]. split; [exact Hcount|].
  split; [exact Htimes|].
  unfold detect_pitch_mpm in Hrows.
  replace (hop_length =? 0)%Z with false in Hrows
    by (symmetry; apply Z.eqb_neq; lia).
  replace (_ <? 0)%Z with false in Hrows by (symmetry; apply Z.ltb_ge; lia).
  apply mapM_inv in Hrows.
  assert (Hn : Z.to_nat (num_frames (Z.of_nat (length audio))
                                    frame_length hop_length) = length rows) by lia.
  rewrite Hn in Hrows.
  assert (Hbound : forall k, In k (seq 0 (length rows)) ->
            (Z.of_nat k * hop_length + frame_length
             <= Z.of_nat (length audio))%Z).
  { intros k Hk. apply in_seq in Hk. unfold num_frames in Hcount.
    assert (Hd := Z.mul_div_le (Z.of_nat (length audio) - frame_length)
                    hop_length HH).
    nia. }
  apply (Forall2_map_with Z.of_nat
           (fun a b => track_frame audio sample_rate frame_length hop_length
                                   threshold fmin fmax a = Ok b)
           (fun k => length (py_slice audio (Z.of_nat k * hop_length)
                                      (Z.of_nat k * hop_length + frame_length))
                     = Z.to_nat frame_length));
    [exact Hrows|].
  intros k Hk. apply py_slice_length; [nia | lia | now apply Hbound].
Qed.

Lemma tracker_series_witness :
  exists rows,
    detect_pitch_mpm [1; -1; 1; -1; 1] 48000 4 1 0.1 50 30000 = Ok rows
    /\ Z.of_nat (length rows) = 2%Z.
Proof.
  destruct (tracker_series [1; -1; 1; -1; 1] 48000 4 1 0.1 50 30000)
    as [rows [H [Hc _]]]; [lra | lia | lia | simpl; lia |].
  exists rows. split; [exact H | exact Hc].
Defined.

(** X11. For a positive hop length, a signal shorter than the frame by
    less than one hop gives the empty series, and a signal shorter than
    that makes the tracker raise [ValueError]. *)
Theorem tracker_short_signal (audio : list R) (sample_rate : R)
    (frame_length hop_length : Z) (threshold fmin fmax : R) :
  (0 < hop_length)%Z ->
  ((frame_length - hop_length <= Z.of_nat (length audio) < frame_length)%Z ->
   detect_pitch_mpm audio sample_rate frame_length hop_length
                    threshold fmin fmax = Ok [])
  /\ ((Z.of_nat (length audio) < frame_length - hop_length)%Z ->
      detect_pitch_mpm audio sample_rate frame_length hop_length
                       threshold fmin fmax = Raise ValueError).
Proof.
  intros HH. split; intros Hl.
  - unfold detect_pitch_mpm.
    replace (hop_length =? 0)%Z with false by (symmetry; apply Z.eqb_neq; lia).
    rewrite (num_frames_zero _ _ _ HH Hl). reflexivity.
  - apply detect_pitch_mpm_negative_count; [lia|].
    now apply num_frames_negative.
Qed.

Lemma tracker_short_signal_witness :
  detect_pitch_mpm [1; -1; 1] 48000 4 2 0.1 50 2000 = Ok []
  /\ detect_pitch_mpm [1] 48000 4 2 0.1 50 2000 = Raise ValueError.
Proof.
  split.
  - apply (tracker_short_signal [1; -1; 1] 48000 4 2 0.1 50 2000);
      [lia | simpl; lia].
  - apply (tracker_short_signal [1] 48000 4 2 0.1 50 2000);
      [lia | simpl; lia].
Defined.

(** X12. A sample rate of zero makes the tracker raise
    [ZeroDivisionError] as soon as there is one frame to stamp. *)
Theorem tracker_zero_sample_rate (audio : list R)
    (frame_length hop_length : Z) (threshold fmin fmax : R) :
  (0 < hop_length)%Z -> (frame_length <= Z.of_nat (length audio))%Z ->
  detect_pitch_mpm audio 0 frame_length hop_length threshold fmin fmax
  = Raise ZeroDivisionError.
Proof.
  intros HH Hl. unfold detect_pitch_mpm.
  replace (hop_length =? 0)%Z with false by (symmetry; apply Z.eqb_neq; lia).
  set (nf := num_frames (Z.of_nat (length audio)) frame_length hop_length).
  assert (Hnf : (1 <= nf)%Z).
  { unfold nf, num_frames.
    assert (0 <= (Z.of_nat (length audio) - frame_length) / hop_length)%Z
      by (apply Z.div_pos; lia).
    lia. }
  replace (nf <? 0)%Z with false by (symmetry; apply Z.ltb_ge; lia).
  destruct (Z.to_nat nf) as [|n] eqn:E; [lia|].
  cbn [seq map mapM]. unfold track_frame at 1.
  rewrite (proj2 (Reqb_true 0 0) eq_refl). reflexivity.
Qed.

Lemma tracker_zero_sample_rate_witness :
  detect_pitch_mpm [1; -1; 1; -1] 0 4 2 0.1 50 2000 = Raise ZeroDivisionError.
Proof.
  apply (tracker_zero_sample_rate [1; -1; 1; -1] 4 2 0.1 50 2000);
    [lia | simpl; lia].
Defined.

Lemma mpm_result_shape (x : list R) (sr thr f : R) (o : option R) :
  mpm_pitch_detection x sr thr = Ok (Some f, o) -> exists c, o = Some c.
Proof.
  intros H.
  destruct (normalized_square_difference x) as [nsdf|e] eqn:Hn.
  - destruct (mpm_pitch_detection_cases x sr thr nsdf Hn) as [E|[f' [c [E _]]]];
      rewrite E in H; [discriminate|].
    injection H as _ <-. now exists c.
  - unfold mpm_pitch_detection in H. rewrite Hn in H. discriminate.
Qed.

Lemma track_frame_row (audio : list R) (sr : R) (L H : Z) (thr fmin fmax : R)
    (i : Z) (row : frame_row) :
  track_frame audio sr L H thr fmin fmax i = Ok row -> row_ok thr fmin fmax row.
Proof.
  unfold track_frame. destruct (Reqb sr 0); [discriminate|]. cbn [bind].
  destruct (mpm_pitch_detection _ sr thr) as [[o1 o2]|e] eqn:E; [|discriminate].
  cbn [bind fst snd]. destruct o1 as [f|].
  - destruct (mpm_result_shape _ _ _ _ _ E) as [c ->].
    destruct (mpm_estimate_bounds _ _ _ _ _ E) as [Ht [Hc _]].
    destruct (Rleb fmin f && Rleb f fmax) eqn:Er; intros H0;
      injection H0 as <-; [|left; now split].
    apply andb_true_iff in Er. destruct Er as [E1 E2].
    apply Rleb_true in E1. apply Rleb_true in E2.
    right. exists f, c. cbn. repeat split; try assumption; lra.
  - intros H0. injection H0 as <-. left. now split.
Qed.

Lemma detect_pitch_mpm_rows_ok (audio : list R) (sr : R) (L H : Z)
    (thr fmin fmax : R) (rows : list frame_row) :
  detect_pitch_mpm audio sr L H thr fmin fmax = Ok rows ->
  Forall (row_ok thr fmin fmax) rows.
Proof.
  unfold detect_pitch_mpm. destruct (H =? 0)%Z; [discriminate|].
  destruct (_ <? 0)%Z; [discriminate|]. intros HM.
  apply mapM_inv in HM.
  induction HM as [|k row ks rows' Hk _ IH]; constructor; [|exact IH].
  now apply (track_frame_row _ _ _ _ _ _ _ _ _ Hk).
Qed.

(** X13. In every series the tracker returns, each row has either no
    pitch and no clarity, or both; a recorded pitch lies in
    [fmin, fmax] and its clarity is positive and above the threshold. *)
Theorem tracker_rows_invariant (audio : list R) (sample_rate : R)
    (frame_length hop_length : Z) (threshold fmin fmax : R)
    (rows : list frame_row) :
  detect_pitch_mpm audio sample_rate frame_length hop_length
                   threshold fmin fmax = Ok rows ->
  forall row, In row rows ->
    (row_pitch row = None /\ row_clarity row = None)
    \/ exists f c,
         row_pitch row = Some f /\ row_clarity row = Some c
         /\ fmin <= f <= fmax /\ threshold < c /\ 0 < c.
Proof.
  intros H row Hin.
  assert (HF := detect_pitch_mpm_rows_ok _ _ _ _ _ _ _ _ H).
  rewrite Forall_forall in HF. now apply HF.
Qed.

(** One frame of period two, tracked at 48 kHz with range [50, 30000]. *)
Lemma tracker_one_frame :
  detect_pitch_mpm [1; -1; 1; -1] 48000 4 2 0.1 50 30000
  = Ok [mk_row (Some 24000) (Some 1) (0 / 48000)].
Proof.
  unfold detect_pitch_mpm, num_frames. simpl.
  unfold track_frame, py_slice. simpl. rdecide. cbn [bind].
  rewrite mpm_pitch_detection_alternating. cbn [bind fst snd]. rdecide.
  reflexivity.
Qed.

Lemma tracker_rows_invariant_witness :
  (row_pitch (mk_row (Some 24000) (Some 1) (0 / 48000)) = None
   /\ row_clarity (mk_row (Some 24000) (Some 1) (0 / 48000)) = None)
  \/ exists f c,
       row_pitch (mk_row (Some 24000) (Some 1) (0 / 48000)) = Some f
       /\ row_clarity (mk_row (Some 24000) (Some 1) (0 / 48000)) = Some c
       /\ 50 <= f <= 30000 /\ 0.1 < c /\ 0 < c.
Proof.
  apply (tracker_rows_invariant [1; -1; 1; -1] 48000 4 2 0.1 50 30000
           [mk_row (Some 24000) (Some 1) (0 / 48000)]).
  - apply tracker_one_frame.
  - now left.
Defined.

(** ** More on the aggregator *)

Lemma get_dominant_weighted (pitches clarities : list (option R)) (min_clarity : R) :
  length pitches = length clarities ->
  (forall c, In (Some c) clarities -> min_clarity <= c -> 0 <= c) ->
  let valid := valid_pairs min_clarity pitches clarities in
  (valid = [] ->
   get_dominant_pitch_mpm pitches (Some clarities) min_clarity = Ok None)
  /\ (valid <> [] ->
      exists sorted k,
        Permutation sorted valid
        /\ StronglySorted (fun p q => fst p <= fst q) sorted
        /\ reaches_half sorted k
        /\ get_dominant_pitch_mpm pitches (Some clarities) min_clarity
           = Ok (Some (fst (nth k sorted (0, 0))))).
Proof.
  intros Hlen Hpos valid.
  assert (Hrun : get_dominant_pitch_mpm pitches (Some clarities) min_clarity
                 = if (length (map fst valid) =? 0)%nat then Ok None
                   else weighted_median (map fst valid) (map snd valid)).
  { unfold get_dominant_pitch_mpm.
    rewrite (valid_mask_same_length _ _ _ Hlen). cbn [bind].
    destruct (valid_arrays min_clarity pitches clarities Hlen) as [Hm [Hp Hc]].
    rewrite Hp. fold valid.
    destruct (length (map fst valid) =? 0)%nat; [reflexivity|].
    unfold bool_index. rewrite Hm, <- Hlen, Nat.eqb_refl. cbn [bind].
    rewrite Hc. reflexivity. }
  split.
  - intros E. rewrite Hrun, E. reflexivity.
  - intros Hne.
    assert (Hvalid : forall p, In p valid -> 0 <= snd p).
    { intros [f w] Hin. apply valid_pairs_In in Hin.
      destruct Hin as [_ [Hw Hmin]]. simpl. now apply Hpos. }
    destruct (weighted_median_spec valid Hne Hvalid)
      as [sorted [k [Hperm [Hs [Hk Hres]]]]].
    exists sorted, k. repeat (split; [assumption|]).
    rewrite Hrun.
    replace (length (map fst valid) =? 0)%nat with false; [exact Hres|].
    symmetry. apply Nat.eqb_neq. rewrite length_map.
    destruct valid; [congruence | discriminate].
Qed.

Lemma filter_weight_perm (q : R * R -> bool) (l l' : list (R * R)) :
  Permutation l l' ->
  sumR (map snd (filter q l)) = sumR (map snd (filter q l')).
Proof.
  intros H. apply sumR_perm. apply Permutation_map. induction H; simpl.
  - constructor.
  - destruct (q x); [now constructor | assumption].
  - destruct (q x), (q y); try reflexivity; apply perm_swap.
  - etransitivity; eassumption.
Qed.

Lemma filter_weight_none (q : R * R -> bool) (l : list (R * R)) :
  (forall p, In p l -> q p = false) -> sumR (map snd (filter q l)) = 0.
Proof.
  intros H. induction l as [|p l IH]; [reflexivity|].
  simpl. rewrite (H p (or_introl eq_refl)).
  apply IH. intros r Hr. apply H. now right.
Qed.

Lemma filter_weight_bounds (q : R * R -> bool) (l : list (R * R)) :
  (forall p, In p l -> 0 <= snd p) ->
  0 <= sumR (map snd (filter q l)) <= sumR (map snd l).
Proof.
  intros H. induction l as [|p l IH]; simpl; [lra|].
  assert (0 <= snd p) by (apply H; now left).
  assert (IH' : 0 <= sumR (map snd (filter q l)) <= sumR (map snd l))
    by (apply IH; intros r Hr; apply H; now right).
  destruct (q p); simpl; lra.
Qed.

Lemma weight_below_prefix (l : list (R * R)) (k : nat) :
  StronglySorted (fun p q => fst p <= fst q) l ->
  (forall p, In p l -> 0 <= snd p) ->
  (k < length l)%nat ->
  weight_below (fst (nth k l (0, 0))) l <= sumR (map snd (firstn k l)).
Proof.
  intros Hs Hpos Hk. unfold weight_below.
  rewrite <- (firstn_skipn k l) at 1.
  rewrite filter_app, map_app, sumR_app.
  rewrite (filter_weight_none _ (skipn k l)).
  - assert (H := filter_weight_bounds
                   (fun p => Rltb (fst p) (fst (nth k l (0, 0)))) (firstn k l)).
    destruct H as [_ H]; [|lra].
    intros p Hp. apply Hpos.
    rewrite <- (firstn_skipn k l). apply in_or_app. now left.
  - intros p Hp. destruct (In_skipn_nth (0, 0) _ _ _ Hp) as [i [Hi <-]].
    apply Rltb_false. apply sorted_nth_le; [exact Hs | lia].
Qed.

Lemma weighted_median_pair (pitches clarities : list (option R)) (min_clarity : R) :
  length pitches = length clarities ->
  (forall c, In (Some c) clarities -> min_clarity <= c -> 0 <= c) ->
  let valid := valid_pairs min_clarity pitches clarities in
  valid <> [] ->
  exists f w,
    get_dominant_pitch_mpm pitches (Some clarities) min_clarity = Ok (Some f)
    /\ In (f, w) valid
    /\ total_weight valid / 2 <= weight_upto f valid
    /\ (0 < total_weight valid -> weight_below f valid < total_weight valid / 2).
Proof.
  intros Hlen Hpos valid Hne.
  destruct (get_dominant_weighted pitches clarities min_clarity Hlen Hpos)
    as [_ H]. fold valid in H.
  destruct (H Hne) as [sorted [k [Hperm [Hs [[Hk [Hge Hlt]] Hres]]]]].
  assert (Hvalid : forall p, In p sorted -> 0 <= snd p).
  { intros [f w] Hin. apply (Permutation_in _ Hperm) in Hin.
    apply valid_pairs_In in Hin.
    destruct Hin as [_ [Hw Hmin]]. simpl. now apply Hpos. }
  assert (HT : total_weight sorted = total_weight valid).
  { unfold total_weight. apply sumR_perm. now apply Permutation_map. }
  exists (fst (nth k sorted (0, 0))), (snd (nth k sorted (0, 0))).
  split; [exact Hres|]. split.
  { rewrite <- surjective_pairing. apply (Permutation_in _ Hperm).
    now apply nth_In. }
  split.
  - rewrite <- (weight_upto_perm _ _ _ Hperm), <- HT.
    assert (H1 := weight_upto_ge_cumulative sorted k Hs Hvalid Hk). lra.
  - intros HTpos. unfold weight_below.
    rewrite <- (filter_weight_perm _ _ _ Hperm), <- HT.
    assert (H1 := weight_below_prefix sorted k Hs Hvalid Hk).
    unfold weight_below in H1.
    destruct k as [|j].
    + simpl in H1. lra.
    + assert (H2 := Hlt j ltac:(lia)). unfold cumulative_weight in H2. lra.
Qed.

(** X14. With clarities, a non-empty valid subset and non-negative
    valid clarities, the aggregator returns the frequency f of a valid
    entry that is a weighted median of the valid entries: those with
    frequency at most f carry at least half of the total clarity, and
    (when the total is positive) those with frequency below f carry
    less than half. *)
Theorem weighted_median_property
    (pitches clarities : list (option R)) (min_clarity : R) :
  length pitches = length clarities ->
  (forall c, In (Some c) clarities -> min_clarity <= c -> 0 <= c) ->
  let valid := valid_pairs min_clarity pitches clarities in
  valid <> [] ->
  exists f w,
    get_dominant_pitch_mpm pitches (Some clarities) min_clarity = Ok (Some f)
    /\ In (f, w) valid
    /\ total_weight valid / 2 <= weight_upto f valid
    /\ (0 < total_weight valid -> weight_below f valid < total_weight valid / 2).
Proof. apply weighted_median_pair. Qed.

Lemma weighted_median_property_witness :
  exists f w,
    get_dominant_pitch_mpm [Some 440; None; Some 220; Some 445]
      (Some [Some 0.9; None; Some 0.3; Some 0.95]) 0.5 = Ok (Some f)
    /\ In (f, w) (valid_pairs 0.5 [Some 440; None; Some 220; Some 445]
                    [Some 0.9; None; Some 0.3; Some 0.95]).
Proof.
  destruct (weighted_median_property
              [Some 440; None; Some 220; Some 445]
              [Some 0.9; None; Some 0.3; Some 0.95] 0.5)
    as [f [w [H1 [H2 _]]]].
  - reflexivity.
  - intros c _ Hc. lra.
  - simpl. rdecide. discriminate.
  - exists f, w. split; [exact H1 | exact H2].
Defined.

Lemma valid_pairs_entries (min_clarity : R) (s : list (option R * option R)) :
  valid_pairs min_clarity (map fst s) (map snd s)
  = flat_map (entry_pairs min_clarity) s.
Proof.
  induction s as [|[[f|] [v|]] s IH]; simpl; try exact IH; [reflexivity|].
  destruct (Rleb min_clarity v); simpl; now rewrite IH.
Qed.

Lemma flat_map_perm {A B : Type} (g : A -> list B) (l l' : list A) :
  Permutation l l' -> Permutation (flat_map g l) (flat_map g l').
Proof.
  induction 1; simpl.
  - constructor.
  - now apply Permutation_app_head.
  - rewrite !app_assoc. apply Permutation_app_tail, Permutation_app_comm.
  - etransitivity; eassumption.
Qed.

(** X15. The dominant pitch does not depend on the order of the
    frames: permuting the entries of a series (pitch and clarity
    together) leaves the weighted result unchanged. *)
Theorem dominant_pitch_order_independent
    (s s' : list (option R * option R)) (min_clarity : R) :
  Permutation s s' ->
  (forall c, In (Some c) (map snd s) -> min_clarity <= c -> 0 <= c) ->
  get_dominant_pitch_mpm (map fst s) (Some (map snd s)) min_clarity
  = get_dominant_pitch_mpm (map fst s') (Some (map snd s')) min_clarity.
Proof.
  intros Hperm Hpos.
  assert (Hpos' : forall c, In (Some c) (map snd s') -> min_clarity <= c -> 0 <= c).
  { intros c Hc. apply Hpos.
    apply (Permutation_in _ (Permutation_sym (Permutation_map snd Hperm)) Hc). }
  assert (Hl : length (map fst s) = length (map snd s))
    by now rewrite !length_map.
  assert (Hl' : length (map fst s') = length (map snd s'))
    by now rewrite !length_map.
  destruct (get_dominant_weighted _ _ min_clarity Hl Hpos) as [H0 H1].
  destruct (get_dominant_weighted _ _ min_clarity Hl' Hpos') as [H0' H1'].
  assert (HV : Permutation (valid_pairs min_clarity (map fst s) (map snd s))
                           (valid_pairs min_clarity (map fst s') (map snd s'))).
  { rewrite !valid_pairs_entries. now apply flat_map_perm. }
  set (V := valid_pairs min_clarity (map fst s) (map snd s)) in *.
  set (V' := valid_pairs min_clarity (map fst s') (map snd s')) in *.
  destruct V as [|p V0] eqn:EV.
  - apply Permutation_nil in HV. rewrite H0 by reflexivity.
    now rewrite H0' by exact HV.
  - assert (HV' : V' <> []).
    { intros E. rewrite E in HV. symmetry in HV.
      apply Permutation_nil in HV. discriminate. }
    destruct (H1 ltac:(discriminate)) as [l [k [Hp [Hs [Hk Hres]]]]].
    destruct (H1' HV') as [l' [k' [Hp' [Hs' [Hk' Hres']]]]].
    rewrite Hres, Hres'. do 2 f_equal.
    apply reaches_half_unique; try assumption.
    + now rewrite Hp, HV, Hp'.
    + intros [f w] Hin. apply (Permutation_in _ Hp) in Hin.
      rewrite <- EV in Hin. apply valid_pairs_In in Hin.
      destruct Hin as [_ [Hw Hmin]]. simpl. now apply Hpos.
Qed.

Lemma dominant_pitch_order_independent_witness :
  get_dominant_pitch_mpm (map fst [(Some 440, Some 0.9); (Some 445, Some 0.95)])
    (Some (map snd [(Some 440, Some 0.9); (Some 445, Some 0.95)])) 0.5
  = get_dominant_pitch_mpm (map fst [(Some 445, Some 0.95); (Some 440, Some 0.9)])
      (Some (map snd [(Some 445, Some 0.95); (Some 440, Some 0.9)])) 0.5.
Proof.
  apply (dominant_pitch_order_independent
           [(Some 440, Some 0.9); (Some 445, Some 0.95)]
           [(Some 445, Some 0.95); (Some 440, Some 0.9)] 0.5).
  - apply perm_swap.
  - intros c _ Hc. lra.
Defined.

(** X16. The series returned by the tracker can always be aggregated:
    the aggregator does not raise on it, and a dominant pitch, when
    there is one, is one of the tracked pitches and lies in
    [fmin, fmax]. *)
Theorem tracked_series_aggregates (audio : list R) (sample_rate : R)
    (frame_length hop_length : Z) (threshold fmin fmax min_clarity : R)
    (rows : list frame_row) :
  detect_pitch_mpm audio sample_rate frame_length hop_length
                   threshold fmin fmax = Ok rows ->
  exists r,
    get_dominant_pitch_mpm (pitches_of rows) (Some (clarities_of rows))
                           min_clarity = Ok r
    /\ forall f, r = Some f ->
         In (Some f) (pitches_of rows) /\ fmin <= f <= fmax.
Proof.
  intros Hd.
  assert (HF := detect_pitch_mpm_rows_ok _ _ _ _ _ _ _ _ Hd).
  rewrite Forall_forall in HF.
  assert (Hl : length (pitches_of rows) = length (clarities_of rows))
    by (unfold pitches_of, clarities_of; now rewrite !length_map).
  assert (Hpos : forall c, In (Some c) (clarities_of rows) ->
                   min_clarity <= c -> 0 <= c).
  { intros c Hc _. unfold clarities_of in Hc. apply in_map_iff in Hc.
    destruct Hc as [row [Hrc Hin]].
    destruct (HF row Hin) as [[_ Hn]|[f [c' [_ [Hc' [_ [_ Hb]]]]]]];
      [congruence|].
    assert (c = c') by congruence. subst c'. lra. }
  assert (Hrange : forall f, In (Some f) (pitches_of rows) -> fmin <= f <= fmax).
  { intros f Hf. unfold pitches_of in Hf. apply in_map_iff in Hf.
    destruct Hf as [row [Hrp Hin]].
    destruct (HF row Hin) as [[Hn _]|[f' [c' [Hp' [_ [Hb _]]]]]];
      [congruence|].
    assert (f = f') by congruence. now subst f'. }
  destruct (get_dominant_weighted _ _ min_clarity Hl Hpos) as [H0 H1].
  destruct (valid_pairs min_clarity (pitches_of rows) (clarities_of rows))
    as [|p V] eqn:EV.
  - exists None. split; [now apply H0 | discriminate].
  - destruct (H1 ltac:(discriminate)) as [l [k [Hp [_ [[Hk _] Hres]]]]].
    exists (Some (fst (nth k l (0, 0)))). split; [exact Hres|].
    intros f Hf. injection Hf as <-.
    assert (Hin : In (nth k l (0, 0)) (p :: V))
      by (apply (Permutation_in _ Hp); now apply nth_In).
    rewrite <- EV in Hin. destruct (nth k l (0, 0)) as [f w].
    apply valid_pairs_In in Hin. destruct Hin as [Hin _].
    simpl. split; [exact Hin | now apply Hrange].
Qed.

Lemma tracked_series_aggregates_witness :
  exists r,
    get_dominant_pitch_mpm
      (pitches_of [mk_row (Some 24000) (Some 1) (0 / 48000)])
      (Some (clarities_of [mk_row (Some 24000) (Some 1) (0 / 48000)])) 0.5
    = Ok r.
Proof.
  destruct (tracked_series_aggregates [1; -1; 1; -1] 48000 4 2 0.1 50 30000 0.5
              [mk_row (Some 24000) (Some 1) (0 / 48000)] tracker_one_frame)
    as [r [H _]].
  exists r. exact H.
Defined.

(** ** The unweighted median *)










(** ** Note naming *)

Module PitchUtilsFacts.
Import String PitchUtils.

Lemma ln2_pos : 0 < ln 2.
Proof. assert (H := ln_lt_2). lra. Qed.

Lemma py_round_near (x : R) : - (1 / 2) <= x - IZR (py_round x) <= 1 / 2.
Proof.
  unfold py_round. assert (Hb := Zfloor_bound x).
  destruct (Rltb (x - IZR (Zfloor x)) (1 / 2)) eqn:E1.
  - apply Rltb_true in E1. lra.
  - apply Rltb_false in E1.
    destruct (Rltb (1 / 2) (x - IZR (Zfloor x))) eqn:E2.
    + rewrite plus_IZR. lra.
    + apply Rltb_false in E2.
      destruct (Z.even (Zfloor x)); [lra | rewrite plus_IZR; lra].
Qed.

Lemma py_round_int (k : Z) : py_round (IZR k) = k.
Proof.
  unfold py_round. rewrite ZfloorZ.
  replace (IZR k - IZR k) with 0 by ring.
  now rewrite (proj2 (Rltb_true 0 (1 / 2))) by lra.
Qed.

Lemma py_round_shift (x : R) (k : Z) :
  Z.even k = true -> py_round (x + IZR k) = (py_round x + k)%Z.
Proof.
  intros Hk. unfold py_round. rewrite Zfloor_addz.
  replace (x + IZR k - IZR (Zfloor x + k)) with (x - IZR (Zfloor x))
    by (rewrite plus_IZR; ring).
  destruct (Rltb (x - IZR (Zfloor x)) (1 / 2)); [reflexivity|].
  destruct (Rltb (1 / 2) (x - IZR (Zfloor x))); [lia|].
  rewrite Z.even_add, Hk.
  destruct (Z.even (Zfloor x)); simpl; lia.
Qed.

Lemma log2_double (x : R) : 0 < x -> log2 (2 * x) = 1 + log2 x.
Proof.
  intros Hx. unfold log2. rewrite ln_mult by lra.
  field. assert (H := ln2_pos). lra.
Qed.

Lemma log2_Rpower (y : R) : log2 (Rpower 2 y) = y.
Proof.
  unfold log2. rewrite ln_Rpower. field. assert (H := ln2_pos). lra.
Qed.

Lemma Rpower2_log2 (x : R) : 0 < x -> Rpower 2 (log2 x) = x.
Proof.
  intros Hx. unfold Rpower, log2.
  replace (ln x / ln 2 * ln 2) with (ln x)
    by (field; assert (H := ln2_pos); lra).
  now apply exp_ln.
Qed.

Lemma pitch_to_note_positive (f : R) :
  0 < f ->
  exists m cents,
    pitch_to_note (Some f)
    = (Some (append (note_of m) (py_str_int (octave_of m))),
       Some m, Some cents)
    /\ -50 <= cents <= 50
    /\ f = 440 * Rpower 2 ((IZR m + cents / 100 - 69) / 12).
Proof.
  intros Hf. simpl.
  rewrite (proj2 (Rleb_false f 0) Hf).
  set (x := 69 + 12 * log2 (f / 440)).
  exists (py_round x), (100 * (x - IZR (py_round x))).
  split; [reflexivity|].
  assert (Hn := py_round_near x).
  split; [lra|].
  replace ((IZR (py_round x) + 100 * (x - IZR (py_round x)) / 100 - 69) / 12)
    with (log2 (f / 440)) by (unfold x; field).
  rewrite Rpower2_log2; [field|].
  apply Rdiv_lt_0_compat; lra.
Qed.

(** X18. [pitch_to_note] returns three absent values exactly for an
    absent or non-positive frequency. For a positive frequency it
    returns the nearest MIDI number m, a cents offset in [-50, 50] and
    the name made of the pitch class m mod 12 and the octave
    floor(m/12) - 1; number and offset together give the frequency
    back: f = 440 * 2^((m + cents/100 - 69) / 12). *)
Theorem pitch_to_note_spec (frequency : option R) :
  (pitch_to_note frequency = (None, None, None)
   <-> (frequency = None \/ exists f, frequency = Some f /\ f <= 0))
  /\ (forall f, frequency = Some f -> 0 < f ->
      exists m cents,
        pitch_to_note frequency
        = (Some (append (note_of m) (py_str_int (octave_of m))),
           Some m, Some cents)
        /\ -50 <= cents <= 50
        /\ f = 440 * Rpower 2 ((IZR m + cents / 100 - 69) / 12)).
Proof.
  split.
  - split.
    + destruct frequency as [f|]; [|now left]. simpl.
      destruct (Rleb f 0) eqn:E; [|discriminate].
      intros _. right. exists f. apply Rleb_true in E. now split.
    + intros [->|[f [-> Hf]]]; [reflexivity|].
      simpl. now rewrite (proj2 (Rleb_true f 0) Hf).
  - intros f -> Hf. now apply pitch_to_note_positive.
Qed.

Lemma pitch_to_note_spec_witness :
  exists m cents,
    pitch_to_note (Some 261) 
    = (Some (append (note_of m) (py_str_int (octave_of m))), Some m, Some cents)
    /\ -50 <= cents <= 50.
Proof.
  destruct (proj2 (pitch_to_note_spec (Some 261)) 261 eq_refl)
    as [m [cents [H [Hc _]]]]; [lra|].
  exists m, cents. split; [exact H | exact Hc].
Defined.

(** X19. The frequency of MIDI number k in equal temperament,
    440 * 2^((k - 69) / 12), is named exactly: MIDI number k, zero
    cents, pitch class k mod 12 and octave floor(k/12) - 1. *)
Theorem pitch_to_note_equal_tempered (k : Z) :
  pitch_to_note (Some (440 * Rpower 2 ((IZR k - 69) / 12)))
  = (Some (append (note_of k) (py_str_int (octave_of k))), Some k, Some 0).
Proof.
  unfold pitch_to_note.
  assert (Hp : 0 < 440 * Rpower 2 ((IZR k - 69) / 12)).
  { apply Rmult_lt_0_compat; [lra|]. unfold Rpower. apply exp_pos. }
  rewrite (proj2 (Rleb_false _ 0) Hp). cbv zeta.
  replace (440 * Rpower 2 ((IZR k - 69) / 12) / 440)
    with (Rpower 2 ((IZR k - 69) / 12)) by field.
  rewrite log2_Rpower.
  replace (69 + 12 * ((IZR k - 69) / 12)) with (IZR k) by field.
  rewrite py_round_int.
  replace (100 * (IZR k - IZR k)) with 0 by ring.
  reflexivity.
Qed.

Lemma pitch_to_note_equal_tempered_witness :
  pitch_to_note (Some (440 * Rpower 2 ((IZR 69 - 69) / 12)))
  = (Some "A4"%string, Some 69%Z, Some 0).
Proof. rewrite pitch_to_note_equal_tempered. reflexivity. Defined.

(** X20. Doubling a positive frequency raises the MIDI number by 12
    and the octave by one, and keeps the pitch class and the cents
    offset. *)
Theorem pitch_to_note_octave (f : R) :
  0 < f ->
  exists m cents,
    pitch_to_note (Some f)
    = (Some (append (note_of m) (py_str_int (octave_of m))),
       Some m, Some cents)
    /\ pitch_to_note (Some (2 * f))
       = (Some (append (note_of m) (py_str_int (octave_of m + 1))),
          Some (m + 12)%Z, Some cents).
Proof.
  intros Hf. unfold pitch_to_note.
  rewrite (proj2 (Rleb_false f 0) Hf).
  rewrite (proj2 (Rleb_false (2 * f) 0)) by lra. cbv zeta.
  set (x := 69 + 12 * log2 (f / 440)).
  assert (Hx : 69 + 12 * log2 (2 * f / 440) = x + IZR 12).
  { replace (2 * f / 440) with (2 * (f / 440)) by field.
    rewrite log2_double by (apply Rdiv_lt_0_compat; lra).
    unfold x. ring. }
  rewrite Hx, (py_round_shift x 12 eq_refl).
  exists (py_round x), (100 * (x - IZR (py_round x))).
  split; [reflexivity|].
  assert (Hnote : note_of (py_round x + 12) = note_of (py_round x)).
  { unfold note_of. f_equal. f_equal.
    replace (py_round x + 12)%Z with (py_round x + 1 * 12)%Z by lia.
    apply Z.mod_add. discriminate. }
  assert (Hoct : octave_of (py_round x + 12) = (octave_of (py_round x) + 1)%Z).
  { unfold octave_of.
    replace (py_round x + 12)%Z with (py_round x + 1 * 12)%Z by lia.
    rewrite Z.div_add by discriminate. lia. }
  rewrite Hnote, Hoct. do 2 f_equal.
  rewrite plus_IZR. ring.
Qed.

Lemma pitch_to_note_octave_witness :
  exists m cents,
    pitch_to_note (Some 261)
    = (Some (append (note_of m) (py_str_int (octave_of m))),
       Some m, Some cents)
    /\ pitch_to_note (Some (2 * 261))
       = (Some (append (note_of m) (py_str_int (octave_of m + 1))),
          Some (m + 12)%Z, Some cents).
Proof. apply (pitch_to_note_octave 261). lra. Defined.

(** X21. With a positive sample rate, what the detector returns can
    always be named: "no estimate" gives three absent values, and an
    estimate gives a name, a MIDI number and a cents offset in
    [-50, 50]. *)
Theorem estimate_named (x : list R) (sample_rate threshold : R)
    (frequency clarity : option R) :
  0 < sample_rate ->
  mpm_pitch_detection x sample_rate threshold = Ok (frequency, clarity) ->
  (frequency = None /\ pitch_to_note frequency = (None, None, None))
  \/ exists f m cents,
       frequency = Some f
       /\ pitch_to_note frequency
          = (Some (append (note_of m) (py_str_int (octave_of m))),
             Some m, Some cents)
       /\ -50 <= cents <= 50.
Proof.
  intros Hsr H.
  destruct (normalized_square_difference x) as [nsdf|e] eqn:Hn.
  - destruct (mpm_pitch_detection_cases x sample_rate threshold nsdf Hn)
      as [E|[f [c [E Hpos]]]]; rewrite E in H; injection H as <- <-.
    + left. now split.
    + right. destruct (pitch_to_note_positive f (Hpos Hsr)) as [m [cents [Hp [Hc _]]]].
      exists f, m, cents. now repeat split.
  - unfold mpm_pitch_detection in H. rewrite Hn in H. discriminate.
Qed.

Lemma estimate_named_witness :
  (Some 24000 = None /\ pitch_to_note (Some 24000) = (None, None, None))
  \/ exists f m cents,
       Some 24000 = Some f
       /\ pitch_to_note (Some 24000)
          = (Some (append (note_of m) (py_str_int (octave_of m))),
             Some m, Some cents)
       /\ -50 <= cents <= 50.
Proof.
  apply (estimate_named [1; -1; 1; -1] 48000 0.1 (Some 24000) (Some 1)).
  - lra.
  - apply mpm_pitch_detection_alternating.
Defined.

End PitchUtilsFacts.
